(** * Quadrature and interpolation utilities of [spl.utilities.integrate]

    A shallow embedding of [src/spl/utilities/integrate.py] (the function
    [integrate] and the classes [Integral] and [Interpolation]) together with
    the per-axis difference stencils of the discrete derivative complex.

    Python objects live in a store: NumPy arrays and class instances are
    mutable and passed by reference, so every function of the source is a
    computation over the store that may raise. *)

From Stdlib Require Import ZArith QArith Lia.
From stdpp Require Import base option list gmap strings.

Set Default Proof Using "Type".

Local Open Scope Z_scope.
Local Open Scope nat_scope.

(** ** Exceptions and results *)

Inductive exn : Type :=
  | AssertionError
  | IndexError
  | TypeError
  | AttributeError
  | UnboundLocalError
  | ExternalError (msg : string).

Inductive result (A : Type) : Type :=
  | Ok (a : A)
  | Raise (e : exn).
Arguments Ok {A} a.
Arguments Raise {A} e.

(** ** References and attribute values *)

Definition loc : Type := positive.

(** What an instance attribute or a local variable can hold in this file:
    [None], an [int], a [str], or a reference to a mutable object. *)
Inductive value : Type :=
  | VNone
  | VInt (z : Z)
  | VStr (s : string)
  | VRef (l : loc).

Section Store.

(** The scalars of the arrays ([float64] in the source) with the two
    operations the source uses on them.  Nothing is assumed of [add] and
    [mul]: neither associativity nor commutativity, so every statement below
    fixes the order of evaluation of the source. *)
Context {R : Type}.
Variable zero : R.
Variable add mul : R → R → R.

(** A heap object.  [Array1] is a one-dimensional sequence of scalars (a
    Python list or a 1-D [np.array]); [Array2 k ne a] is a two-dimensional
    [np.array] of shape [(k, ne)] with [a i j] its entry [[i, j]];
    [Instance] is a class instance with its attribute dictionary. *)
Inductive pyobj : Type :=
  | Array1 (data : list R)
  | Array2 (shape0 shape1 : nat) (item : nat → nat → R)
  | Instance (attrs : gmap string value).

Abbreviation heap := (gmap loc pyobj).

(** A computation: runs on a heap, returns a value or raises, and leaves a
    heap behind in both cases. *)
Definition M (A : Type) : Type := heap → result A * heap.

#[export] Instance M_ret : MRet M := λ A a h, (Ok a, h).

Definition raise {A} (e : exn) : M A := λ h, (Raise e, h).

#[export] Instance M_bind : MBind M := λ A B k m h,
  match m h with
  | (Ok a, h') => k a h'
  | (Raise e, h') => (Raise e, h')
  end.

(** [for x in xs: body(x)] *)
Fixpoint for_ {A} (xs : list A) (body : A → M unit) : M unit :=
  match xs with
  | [] => mret tt
  | x :: xs' => body x ;; for_ xs' body
  end.

(** [range(0, n)] *)
Definition range (n : nat) : list nat := seq 0 n.

(** ** Store primitives *)

(** Allocation of a new object, at a location not in use. *)
Definition alloc (o : pyobj) : M loc :=
  λ h, let l := fresh (dom h) in (Ok l, <[l := o]> h).

(** [np.zeros(n)] *)
Definition np_zeros (n : nat) : M loc := alloc (Array1 (replicate n zero)).

(** [np.array([...])] of a list of scalars *)
Definition np_array (xs : list R) : M loc := alloc (Array1 xs).

(** [a.shape[1]] *)
Definition shape_1 (a : loc) : M nat :=
  λ h, match h !! a with
       | Some (Array2 _ ne _) => (Ok ne, h)
       | Some (Array1 _) => (Raise IndexError, h)
       | _ => (Raise AttributeError, h)
       end.

(** [a[:, ie]], read out as the list of its entries *)
Definition getcol (a : loc) (ie : nat) : M (list R) :=
  λ h, match h !! a with
       | Some (Array2 k ne item) =>
           if decide (ie < ne) then (Ok (map (λ i, item i ie) (range k)), h)
           else (Raise IndexError, h)
       | Some (Array1 _) => (Raise IndexError, h)
       | _ => (Raise TypeError, h)
       end.

(** [a[i] = v] on a one-dimensional array *)
Definition setitem (a : loc) (i : nat) (v : R) : M unit :=
  λ h, match h !! a with
       | Some (Array1 data) =>
           if decide (i < length data)
           then (Ok tt, <[a := Array1 (<[i := v]> data)]> h)
           else (Raise IndexError, h)
       | _ => (Raise TypeError, h)
       end.

(** the items of a one-dimensional sequence, as [for x in a] sees them *)
Definition items (a : loc) : M (list R) :=
  λ h, match h !! a with
       | Some (Array1 data) => (Ok data, h)
       | _ => (Raise TypeError, h)
       end.

(** [len(a)] *)
Definition len (a : loc) : M Z :=
  λ h, match h !! a with
       | Some (Array1 data) => (Ok (Z.of_nat (length data)), h)
       | Some (Array2 k _ _) => (Ok (Z.of_nat k), h)
       | _ => (Raise TypeError, h)
       end.

(** [self.name] *)
Definition getattr (self : loc) (name : string) : M value :=
  λ h, match h !! self with
       | Some (Instance attrs) =>
           match attrs !! name with
           | Some v => (Ok v, h)
           | None => (Raise AttributeError, h)
           end
       | _ => (Raise AttributeError, h)
       end.

(** [self.name = v] *)
Definition setattr (self : loc) (name : string) (v : value) : M unit :=
  λ h, match h !! self with
       | Some (Instance attrs) =>
           (Ok tt, <[self := Instance (<[name := v]> attrs)]> h)
       | _ => (Raise AttributeError, h)
       end.

(** a value used where an array is expected *)
Definition as_ref (v : value) : M loc :=
  match v with
  | VRef l => mret l
  | _ => raise TypeError
  end.

(** [assert b] *)
Definition py_assert (b : bool) : M unit :=
  if b then mret tt else raise AssertionError.

(** ** [integrate]

    The [import] statements at the head of the function bind names that the
    body does not use; they are left out. *)

(** [np.sum] of a generator falls back on the builtin [sum]: a left fold
    that starts from [0]. *)
Definition py_sum (xs : list R) : R := fold_left add xs zero.

(** [np.sum(w*f(x) for (x,w) in zip(X,W))] *)
Definition weighted_sum (f : R → R) (X W : list R) : R :=
  py_sum (zip_with (λ x w, mul w (f x)) X W).

Definition integrate (points weights : loc) (f : R → R) : M loc :=
  ne ← shape_1 points;
  f_int ← np_zeros ne;
  for_ (range ne) (λ ie,
    X ← getcol points ie;
    W ← getcol weights ie;
    setitem f_int ie (weighted_sum f X W));;
  mret f_int.

(** ** Collaborators

    [spl.core] and [spl.utilities.quadratures] are used by the classes below
    and are not part of this file: they are arbitrary computations over the
    store, which may allocate, mutate and raise. *)
Variable construct_grid_from_knots : Z → Z → loc → M loc.
Variable compute_greville : Z → Z → loc → M loc.
Variable gauss_legendre : Z → M (loc * loc).
Variable construct_quadrature_grid :
  Z → Z → loc → loc → loc → M (loc * loc).

(** reading a local variable that may not have been assigned *)
Definition local {A} (x : option A) : M A :=
  match x with
  | Some a => mret a
  | None => raise UnboundLocalError
  end.

(** ** [Integral]

    [__init__] and [__call__] take the instance [self]; an omitted [kind] is
    ['natural'] and an omitted [k] is [None].  [T] is the knot vector, a list
    or an array. *)

Definition Integral_init (self : loc) (p n : Z) (T : loc)
    (kind : string) (k : option Z) : M unit :=
  py_assert (bool_decide (kind ∈ ["natural"; "greville"]));;
  grid ← (if decide (kind = "natural")
          then g ← construct_grid_from_knots p n T; mret (Some g)
          else mret None);
  grid ← (if decide (kind = "greville")
          then g ← compute_greville p n T; mret (Some g)
          else mret grid);
  let k := match k with None => (p + 1)%Z | Some k => k end in
  '(u, w) ← gauss_legendre (k - 1)%Z;
  grid ← local grid;
  lg ← len grid;
  let ne := (lg - 1)%Z in
  '(points, weights) ← construct_quadrature_grid ne k u w grid;
  setattr self "_grid" (VRef grid);;
  setattr self "_kind" (VStr kind);;
  setattr self "_p" (VInt p);;
  setattr self "_n" (VInt n);;
  setattr self "_T" (VRef T);;
  setattr self "_points" (VRef points);;
  setattr self "_weights" (VRef weights).

Definition Integral_call (self : loc) (f : R → R) : M loc :=
  points ← getattr self "_points" ≫= as_ref;
  weights ← getattr self "_weights" ≫= as_ref;
  integrate points weights f.

(** ** [Interpolation]

    An omitted [sites] is [None]. *)

Definition Interpolation_init (self : loc) (p n : Z) (T : loc)
    (sites : option loc) : M unit :=
  sites ← match sites with
          | None => compute_greville p n T
          | Some s => mret s
          end;
  setattr self "_sites" (VRef sites);;
  setattr self "_p" (VInt p);;
  setattr self "_n" (VInt n);;
  setattr self "_T" (VRef T).

Definition Interpolation_call (self : loc) (f : R → R) : M loc :=
  sites ← getattr self "_sites" ≫= as_ref;
  xs ← items sites;
  np_array (map f xs).

(** ** What the specification speaks of *)

(** The sum over the quadrature index [i < k] of [t i], in index order. *)
Fixpoint quadrature_sum (k : nat) (t : nat → R) : R :=
  match k with
  | 0 => zero
  | S k' => add (quadrature_sum k' t) (t k')
  end.

(** The integral over element [ie]: the sum over [i] of
    [weights[i, ie] * f(points[i, ie])]. *)
Definition element_integral (k : nat) (P W : nat → nat → R) (f : R → R)
    (ie : nat) : R :=
  quadrature_sum k (λ i, mul (W i ie) (f (P i ie))).

(** [(points, weights)] is a quadrature grid in [h]: two arrays of one
    shape [(k, ne)]. *)
Definition quadrature_grid (h : heap) (points weights : loc)
    (k ne : nat) (P W : nat → nat → R) : Prop :=
  h !! points = Some (Array2 k ne P) ∧ h !! weights = Some (Array2 k ne W).

(** [h'] keeps every object of [h] as it is. *)
Definition preserves (h h' : heap) : Prop :=
  ∀ l o, h !! l = Some o → h' !! l = Some o.

(** The instance at [self] has the attribute [name], holding [v]. *)
Definition has_attr (h : heap) (self : loc) (name : string) (v : value)
    : Prop :=
  ∃ attrs, h !! self = Some (Instance attrs) ∧ attrs !! name = Some v.

(** The grid of an [Integral] of the given kind, as the docstring has it:
    the grid induced by the knot vector for ['natural'], the Greville
    abscissae for ['greville'].  [grid_built p n T h grid h1 kind]: the
    collaborator for that kind, run on [h], returns [grid] and leaves [h1]. *)
Inductive grid_built (p n : Z) (T : loc) (h : heap) (grid : loc) (h1 : heap)
    : string → Prop :=
  | grid_natural :
      construct_grid_from_knots p n T h = (Ok grid, h1) →
      grid_built p n T h grid h1 "natural"
  | grid_greville :
      compute_greville p n T h = (Ok grid, h1) →
      grid_built p n T h grid h1 "greville".

(** The collaborators of [Integral.__init__] all return: the grid of the
    kind is [grid], holding the points [g]; the Gauss-Legendre rule is asked
    for with [k - 1]; the quadrature grid is built for [len(grid) - 1]
    elements and order [k], and is [(points, weights)], in the store [h3]. *)
Inductive quadrature_built (p n : Z) (T : loc) (kind : string) (k : Z)
    (h : heap) (grid : loc) (g : list R) (points weights : loc) (h3 : heap)
    : Prop :=
  | quadrature_built_intro (u w : loc) (h1 h2 : heap) :
      grid_built p n T h grid h1 kind →
      gauss_legendre (k - 1)%Z h1 = (Ok (u, w), h2) →
      h2 !! grid = Some (Array1 g) →
      construct_quadrature_grid (Z.of_nat (length g) - 1)%Z k u w grid h2
        = (Ok (points, weights), h3) →
      quadrature_built p n T kind k h grid g points weights h3.

(** the attribute dictionary [Integral.__init__] leaves behind *)
Definition Integral_attrs (attrs : gmap string value) (grid : loc)
    (kind : string) (p n : Z) (T points weights : loc) : gmap string value :=
  <["_weights" := VRef weights]> (<["_points" := VRef points]>
  (<["_T" := VRef T]> (<["_n" := VInt n]> (<["_p" := VInt p]>
  (<["_kind" := VStr kind]> (<["_grid" := VRef grid]> attrs)))))).

(** ** Running computations *)

Lemma bind_run {A B} (m : M A) (k : A → M B) (h : heap) :
  (m ≫= k) h =
  match m h with
  | (Ok a, h') => k a h'
  | (Raise e, h') => (Raise e, h')
  end.
Proof. reflexivity. Qed.

Lemma bind_ok {A B} (m : M A) (k : A → M B) (h h' : heap) a :
  m h = (Ok a, h') → (m ≫= k) h = k a h'.
Proof. intros E. by rewrite bind_run, E. Qed.

Lemma preserves_refl (h : heap) : preserves h h.
Proof. by intros l o. Qed.

Lemma preserves_insert_fresh (h : heap) (l : loc) (o : pyobj) :
  h !! l = None → preserves h (<[l := o]> h).
Proof.
  intros Hl l' o' E. rewrite lookup_insert_ne; [done|congruence].
Qed.

Lemma fresh_unused (h : heap) : h !! fresh (dom h) = None.
Proof. apply not_elem_of_dom, is_fresh. Qed.

(** ** [integrate]: the loop *)

Lemma py_sum_snoc (xs : list R) (x : R) :
  py_sum (xs ++ [x]) = add (py_sum xs) x.
Proof. unfold py_sum. by rewrite fold_left_app. Qed.

Lemma weighted_sum_columns (f : R → R) (P W : nat → nat → R) (k ie : nat) :
  weighted_sum f (map (λ i, P i ie) (range k)) (map (λ i, W i ie) (range k))
  = element_integral k P W f ie.
Proof.
  unfold weighted_sum, element_integral, range.
  induction k as [|k IH]; [done|].
  rewrite seq_S, !map_app. simpl.
  rewrite zip_with_app by (by rewrite !length_map).
  simpl. by rewrite py_sum_snoc, IH.
Qed.

Section Loop.
Variables (points weights r : loc) (f : R → R) (h : heap).
Variables (kp ne kw nw : nat) (P W : nat → nat → R).
Hypothesis Hpoints : h !! points = Some (Array2 kp ne P).
Hypothesis Hweights : h !! weights = Some (Array2 kw nw W).
Hypothesis Hr : h !! r = None.

(** the value the loop body stores at index [ie] *)
Let entry (ie : nat) : R :=
  weighted_sum f (map (λ i, P i ie) (range kp))
                 (map (λ i, W i ie) (range kw)).

Let body (ie : nat) : M unit :=
  X ← getcol points ie;
  Wc ← getcol weights ie;
  setitem r ie (weighted_sum f X Wc).

Lemma integrate_body_step (ie : nat) (done : list R) (rest : list R) (z : R) :
  ie < ne → ie < nw → length done = ie →
  body ie (<[r := Array1 (done ++ z :: rest)]> h)
  = (Ok tt, <[r := Array1 (done ++ entry ie :: rest)]> h).
Proof using Hpoints Hweights Hr.
  intros Hne Hnw Hlen. unfold body.
  assert (points ≠ r) as Hpr by congruence.
  assert (weights ≠ r) as Hwr by congruence.
  rewrite bind_run. unfold getcol at 1.
  rewrite lookup_insert_ne, Hpoints by done.
  rewrite decide_True by done.
  rewrite bind_run. unfold getcol at 1.
  rewrite lookup_insert_ne, Hweights by done.
  rewrite decide_True by done.
  unfold setitem. rewrite lookup_insert_eq.
  rewrite decide_True by (rewrite length_app; simpl; lia).
  rewrite insert_insert_eq.
  rewrite insert_app_r_alt by lia.
  replace (ie - length done) with 0 by lia. done.
Qed.

Lemma integrate_loop (m j : nat) (done : list R) :
  j + m ≤ ne → j + m ≤ nw → length done = j →
  for_ (seq j m) body (<[r := Array1 (done ++ replicate m zero)]> h)
  = (Ok tt, <[r := Array1 (done ++ map entry (seq j m))]> h).
Proof using Hpoints Hweights Hr.
  revert j done. induction m as [|m IH]; intros j done Hne Hnw Hlen.
  - done.
  - simpl. rewrite bind_run.
    rewrite integrate_body_step by (done || lia).
    rewrite (cons_middle (entry j)), (cons_middle (entry j) done), !app_assoc.
    apply IH; [lia|lia|]. rewrite length_app. simpl. lia.
Qed.
End Loop.

Lemma integrate_run (points weights : loc) (f : R → R) (h : heap)
    (kp ne kw nw : nat) (P W : nat → nat → R) :
  h !! points = Some (Array2 kp ne P) →
  h !! weights = Some (Array2 kw nw W) →
  ne ≤ nw →
  integrate points weights f h
  = (Ok (fresh (dom h)),
     <[fresh (dom h) :=
         Array1 (map (λ ie, weighted_sum f (map (λ i, P i ie) (range kp))
                                           (map (λ i, W i ie) (range kw)))
                     (range ne))]> h).
Proof.
  intros Hp Hw Hle. unfold integrate.
  rewrite bind_run. unfold shape_1 at 1. rewrite Hp.
  rewrite bind_run. unfold np_zeros, alloc.
  set (r := fresh (dom h)).
  rewrite bind_run.
  pose proof (integrate_loop points weights r f h kp ne kw nw P W Hp Hw
                (fresh_unused h) ne 0 [] ) as Hloop.
  simpl in Hloop. unfold range. by rewrite Hloop by (done || lia).
Qed.

(** ** Reads leave the store alone *)

Lemma bind_inv {A B} (m : M A) (k : A → M B) (h h' : heap) (res : result B) :
  (m ≫= k) h = (res, h') →
  (∃ a h1, m h = (Ok a, h1) ∧ k a h1 = (res, h'))
  ∨ (∃ e, m h = (Raise e, h') ∧ res = Raise e).
Proof.
  rewrite bind_run. destruct (m h) as [[a|e] h1]; intros E.
  - left. eauto.
  - right. exists e. by simplify_eq.
Qed.

Lemma shape_1_heap (a : loc) (h h' : heap) res :
  shape_1 a h = (res, h') → h' = h.
Proof. unfold shape_1. intros E. repeat case_match; by simplify_eq. Qed.

Lemma getcol_heap (a : loc) (ie : nat) (h h' : heap) res :
  getcol a ie h = (res, h') → h' = h.
Proof. unfold getcol. intros E. repeat case_match; by simplify_eq. Qed.

Lemma items_heap (a : loc) (h h' : heap) res :
  items a h = (res, h') → h' = h.
Proof. unfold items. intros E. repeat case_match; by simplify_eq. Qed.

Lemma getattr_heap (self : loc) (name : string) (h h' : heap) res :
  getattr self name h = (res, h') → h' = h.
Proof. unfold getattr. intros E. repeat case_match; by simplify_eq. Qed.

Lemma as_ref_heap (v : value) (h h' : heap) res :
  as_ref v h = (res, h') → h' = h.
Proof.
  destruct v; unfold as_ref, mret, M_ret, raise; intros E; by simplify_eq.
Qed.

Lemma getattr_ref_heap (self : loc) (name : string) (h h' : heap) res :
  (getattr self name ≫= as_ref) h = (res, h') → h' = h.
Proof.
  intros E. apply bind_inv in E as [(v & h1 & E1 & E2)|(e & E1 & _)].
  - apply getattr_heap in E1 as ->. by apply as_ref_heap in E2.
  - by apply getattr_heap in E1.
Qed.

(** ** Writes of [integrate] go to its own array only *)

Lemma setitem_preserves (r : loc) (i : nat) (v : R) (h hc h' : heap) res :
  h !! r = None → preserves h hc →
  setitem r i v hc = (res, h') → preserves h h'.
Proof.
  intros Hr Hpre. unfold setitem. intros E.
  repeat case_match; simplify_eq; try done.
  intros l' o' Hl. rewrite lookup_insert_ne by congruence. by apply Hpre.
Qed.

Lemma integrate_body_preserves (points weights r : loc) (f : R → R)
    (ie : nat) (h hc h' : heap) res :
  h !! r = None → preserves h hc →
  (X ← getcol points ie;
   W ← getcol weights ie;
   setitem r ie (weighted_sum f X W)) hc = (res, h') →
  preserves h h'.
Proof.
  intros Hr Hpre E.
  apply bind_inv in E as [(X & h1 & E1 & E2)|(e & E1 & _)];
    [|by apply getcol_heap in E1 as ->].
  apply getcol_heap in E1 as ->.
  apply bind_inv in E2 as [(W & h2 & E2 & E3)|(e & E2 & _)];
    [|by apply getcol_heap in E2 as ->].
  apply getcol_heap in E2 as ->.
  by eapply setitem_preserves.
Qed.

Lemma integrate_loop_preserves (points weights r : loc) (f : R → R)
    (h : heap) (xs : list nat) (hc h' : heap) res :
  h !! r = None → preserves h hc →
  for_ xs (λ ie, X ← getcol points ie;
                 W ← getcol weights ie;
                 setitem r ie (weighted_sum f X W)) hc = (res, h') →
  preserves h h'.
Proof.
  intros Hr. revert hc. induction xs as [|ie xs IH]; intros hc Hpre E.
  - simpl in E. unfold mret, M_ret in E. by simplify_eq.
  - simpl in E. apply bind_inv in E as [(u & h1 & E1 & E2)|(e & E1 & _)].
    + apply (IH h1); [|done]. by eapply integrate_body_preserves.
    + by eapply integrate_body_preserves.
Qed.

Lemma integrate_preserves (points weights : loc) (f : R → R)
    (h h' : heap) res :
  integrate points weights f h = (res, h') → preserves h h'.
Proof.
  unfold integrate. intros E.
  apply bind_inv in E as [(ne & h1 & E1 & E2)|(e & E1 & _)];
    [|apply shape_1_heap in E1 as ->; apply preserves_refl].
  apply shape_1_heap in E1 as ->.
  rewrite bind_run in E2. unfold np_zeros, alloc in E2.
  pose proof (fresh_unused h) as Hr. set (r := fresh (dom h)) in *.
  apply bind_inv in E2 as [(u & h2 & E2 & E3)|(e & E2 & _)].
  - unfold mret, M_ret in E3. simplify_eq.
    eapply integrate_loop_preserves; [exact Hr| |exact E2].
    by apply preserves_insert_fresh.
  - eapply integrate_loop_preserves; [exact Hr| |exact E2].
    by apply preserves_insert_fresh.
Qed.

Lemma Integral_call_preserves (self : loc) (f : R → R) (h h' : heap) res :
  Integral_call self f h = (res, h') → preserves h h'.
Proof.
  unfold Integral_call. intros E.
  apply bind_inv in E as [(pts & h1 & E1 & E2)|(e & E1 & _)];
    [|apply getattr_ref_heap in E1 as ->; apply preserves_refl].
  apply getattr_ref_heap in E1 as ->.
  apply bind_inv in E2 as [(wts & h2 & E2 & E3)|(e & E2 & _)];
    [|apply getattr_ref_heap in E2 as ->; apply preserves_refl].
  apply getattr_ref_heap in E2 as ->.
  by eapply integrate_preserves.
Qed.

Lemma Interpolation_call_preserves (self : loc) (f : R → R)
    (h h' : heap) res :
  Interpolation_call self f h = (res, h') → preserves h h'.
Proof.
  unfold Interpolation_call. intros E.
  apply bind_inv in E as [(sites & h1 & E1 & E2)|(e & E1 & _)];
    [|apply getattr_ref_heap in E1 as ->; apply preserves_refl].
  apply getattr_ref_heap in E1 as ->.
  apply bind_inv in E2 as [(xs & h2 & E2 & E3)|(e & E2 & _)];
    [|apply items_heap in E2 as ->; apply preserves_refl].
  apply items_heap in E2 as ->.
  unfold np_array, alloc in E3. simplify_eq.
  apply preserves_insert_fresh, fresh_unused.
Qed.

(** ** Attributes *)

Lemma setattr_run (self : loc) (name : string) (v : value) (h : heap) attrs :
  h !! self = Some (Instance attrs) →
  setattr self name v h = (Ok tt, <[self := Instance (<[name := v]> attrs)]> h).
Proof. intros E. unfold setattr. by rewrite E. Qed.

Lemma has_attr_getattr (h : heap) (self : loc) (name : string) (v : value) :
  has_attr h self name v ↔ getattr self name h = (Ok v, h).
Proof.
  unfold has_attr, getattr. split.
  - intros (attrs & -> & ->). done.
  - intros E. repeat case_match; simplify_eq. eauto.
Qed.

Lemma getattr_ref_run (h : heap) (self : loc) (name : string) (l : loc) :
  has_attr h self name (VRef l) →
  (getattr self name ≫= as_ref) h = (Ok l, h).
Proof.
  intros Ha%has_attr_getattr. by rewrite (bind_ok _ _ _ _ _ Ha).
Qed.

(** ** [Integral.__call__] and [Interpolation.__call__] *)

Lemma Integral_call_run (self points weights : loc) (f : R → R) (h : heap)
    (k ne : nat) (P W : nat → nat → R) :
  has_attr h self "_points" (VRef points) →
  has_attr h self "_weights" (VRef weights) →
  quadrature_grid h points weights k ne P W →
  Integral_call self f h
  = (Ok (fresh (dom h)),
     <[fresh (dom h) := Array1 (map (element_integral k P W f) (range ne))]> h).
Proof.
  intros Hp Hw [HP HW]. unfold Integral_call.
  rewrite (bind_ok _ _ _ _ _ (getattr_ref_run _ _ _ _ Hp)).
  rewrite (bind_ok _ _ _ _ _ (getattr_ref_run _ _ _ _ Hw)).
  rewrite (integrate_run _ _ _ _ _ _ _ _ _ _ HP HW) by done.
  do 3 f_equal. apply map_ext. intros ie. apply weighted_sum_columns.
Qed.

Lemma Interpolation_call_run (self sites : loc) (f : R → R) (h : heap)
    (xs : list R) :
  has_attr h self "_sites" (VRef sites) →
  h !! sites = Some (Array1 xs) →
  Interpolation_call self f h
  = (Ok (fresh (dom h)), <[fresh (dom h) := Array1 (map f xs)]> h).
Proof.
  intros Hs Hxs. unfold Interpolation_call.
  rewrite (bind_ok _ _ _ _ _ (getattr_ref_run _ _ _ _ Hs)).
  rewrite bind_run. unfold items. by rewrite Hxs.
Qed.

Lemma has_attr_preserved (h h' : heap) (self : loc) (name : string) v :
  preserves h h' → has_attr h self name v → has_attr h' self name v.
Proof. intros Hpre (attrs & E1 & E2). exists attrs. auto. Qed.

(** ** A call that returned returns the same again *)

Lemma getcol_ok_inv (a : loc) (ie : nat) (h h' : heap) (X : list R) :
  getcol a ie h = (Ok X, h') →
  ∃ k ne item, h !! a = Some (Array2 k ne item) ∧ ie < ne.
Proof. unfold getcol. intros E. repeat case_match; simplify_eq. eauto. Qed.

Lemma setitem_ok_inv (r : loc) (i : nat) (v : R) (h h' : heap) :
  setitem r i v h = (Ok tt, h') →
  ∃ data, h !! r = Some (Array1 data)
          ∧ h' = <[r := Array1 (<[i := v]> data)]> h.
Proof. unfold setitem. intros E. repeat case_match; simplify_eq. eauto. Qed.

Lemma getattr_ref_inv (self : loc) (name : string) (h h' : heap) (l : loc) :
  (getattr self name ≫= as_ref) h = (Ok l, h') →
  has_attr h self name (VRef l) ∧ h' = h.
Proof.
  intros E. apply bind_inv in E as [(v & h1 & E1 & E2)|(e & _ & ?)]; [|done].
  pose proof (getattr_heap _ _ _ _ _ E1) as ->.
  pose proof (as_ref_heap _ _ _ _ E2) as ->.
  destruct v; unfold as_ref, mret, M_ret, raise in E2; simplify_eq.
  split; [|done]. by apply has_attr_getattr.
Qed.

Lemma integrate_loop_ok_inv (points weights r : loc) (f : R → R) (h : heap)
    (xs : list nat) (acc : list R) (h' : heap) :
  for_ xs (λ ie, X ← getcol points ie;
                 W ← getcol weights ie;
                 setitem r ie (weighted_sum f X W))
    (<[r := Array1 acc]> h) = (Ok tt, h') →
  ∀ ie, ie ∈ xs →
    ∃ kw nw W, h !! weights = Some (Array2 kw nw W) ∧ ie < nw.
Proof.
  revert acc. induction xs as [|ie0 xs IH]; intros acc E ie Hie.
  - by apply elem_of_nil in Hie.
  - simpl in E. apply bind_inv in E as [(u & h1 & E1 & E2)|(e & _ & ?)];
      [|done].
    apply bind_inv in E1 as [(X & h2 & E1 & E3)|(e & _ & ?)]; [|done].
    pose proof (getcol_heap _ _ _ _ _ E1) as ->.
    apply bind_inv in E3 as [(W & h3 & E3 & E4)|(e & _ & ?)]; [|done].
    pose proof (getcol_heap _ _ _ _ _ E3) as ->.
    apply getcol_ok_inv in E3 as (kw & nw & Wi & Hw & Hlt).
    destruct u. apply setitem_ok_inv in E4 as (data & Hdata & ->).
    rewrite insert_insert_eq in E2.
    apply elem_of_cons in Hie as [->|Hie]; [|by eapply IH].
    destruct (decide (weights = r)) as [->|Hne].
    + rewrite lookup_insert_eq in Hw. done.
    + rewrite lookup_insert_ne in Hw by done. eauto.
Qed.

Lemma integrate_ok_inv (points weights : loc) (f : R → R) (h h' : heap)
    (r : loc) :
  integrate points weights f h = (Ok r, h') →
  ∃ kp ne P, h !! points = Some (Array2 kp ne P)
    ∧ (ne = 0 ∨ ∃ kw nw W, h !! weights = Some (Array2 kw nw W) ∧ ne ≤ nw).
Proof.
  unfold integrate. intros E.
  apply bind_inv in E as [(ne & h1 & E1 & E2)|(e & _ & ?)]; [|done].
  pose proof (shape_1_heap _ _ _ _ E1) as ->.
  assert (∃ kp P, h !! points = Some (Array2 kp ne P)) as (kp & P & HP).
  { unfold shape_1 in E1. repeat case_match; simplify_eq. eauto. }
  exists kp, ne, P. split; [done|].
  destruct ne as [|ne]; [by left|right].
  rewrite bind_run in E2. unfold np_zeros, alloc in E2.
  apply bind_inv in E2 as [(u & h2 & E2 & _)|(e & _ & ?)]; [|done].
  destruct u.
  destruct (integrate_loop_ok_inv _ _ _ _ _ _ _ _ E2 ne)
    as (kw & nw & W & HW & Hlt).
  { unfold range. apply elem_of_seq. lia. }
  exists kw, nw, W. split; [done|lia].
Qed.

Lemma integrate_run_empty (points weights : loc) (f : R → R) (h : heap)
    (kp : nat) (P : nat → nat → R) :
  h !! points = Some (Array2 kp 0 P) →
  integrate points weights f h
  = (Ok (fresh (dom h)), <[fresh (dom h) := Array1 []]> h).
Proof.
  intros HP. unfold integrate.
  rewrite bind_run. unfold shape_1 at 1. by rewrite HP.
Qed.

Lemma integrate_again (points weights : loc) (f : R → R) (h h' : heap)
    (r : loc) :
  integrate points weights f h = (Ok r, h') →
  ∃ out, r = fresh (dom h) ∧ h' = <[r := Array1 out]> h
    ∧ ∀ h1, preserves h h1 →
        integrate points weights f h1
        = (Ok (fresh (dom h1)), <[fresh (dom h1) := Array1 out]> h1).
Proof.
  intros E.
  destruct (integrate_ok_inv _ _ _ _ _ _ E)
    as (kp & ne & P & HP & [->|(kw & nw & W & HW & Hle)]).
  - rewrite (integrate_run_empty _ _ _ _ _ _ HP) in E. simplify_eq.
    eexists. split; [done|]. split; [done|].
    intros h1 Hpre. by eapply integrate_run_empty, Hpre.
  - rewrite (integrate_run _ _ _ _ _ _ _ _ _ _ HP HW Hle) in E. simplify_eq.
    eexists. split; [done|]. split; [done|].
    intros h1 Hpre.
    by rewrite (integrate_run _ _ _ _ _ _ _ _ _ _ (Hpre _ _ HP) (Hpre _ _ HW)
                  Hle).
Qed.

Lemma Integral_call_again (self : loc) (f : R → R) (h h' : heap) (r : loc) :
  Integral_call self f h = (Ok r, h') →
  ∃ out, r = fresh (dom h) ∧ h' = <[r := Array1 out]> h
    ∧ ∀ h1, preserves h h1 →
        Integral_call self f h1
        = (Ok (fresh (dom h1)), <[fresh (dom h1) := Array1 out]> h1).
Proof.
  unfold Integral_call. intros E.
  apply bind_inv in E as [(points & h1 & E1 & E2)|(e & _ & ?)]; [|done].
  apply getattr_ref_inv in E1 as [Hp ->].
  apply bind_inv in E2 as [(weights & h2 & E2 & E3)|(e & _ & ?)]; [|done].
  apply getattr_ref_inv in E2 as [Hw ->].
  destruct (integrate_again _ _ _ _ _ _ E3) as (out & -> & -> & Hagain).
  exists out. split; [done|]. split; [done|].
  intros h1 Hpre.
  rewrite (bind_ok _ _ _ _ _
             (getattr_ref_run _ _ _ _ (has_attr_preserved _ _ _ _ _ Hpre Hp))).
  rewrite (bind_ok _ _ _ _ _
             (getattr_ref_run _ _ _ _ (has_attr_preserved _ _ _ _ _ Hpre Hw))).
  by apply Hagain.
Qed.

Lemma Interpolation_call_again (self : loc) (f : R → R) (h h' : heap)
    (r : loc) :
  Interpolation_call self f h = (Ok r, h') →
  ∃ out, r = fresh (dom h) ∧ h' = <[r := Array1 out]> h
    ∧ ∀ h1, preserves h h1 →
        Interpolation_call self f h1
        = (Ok (fresh (dom h1)), <[fresh (dom h1) := Array1 out]> h1).
Proof.
  unfold Interpolation_call. intros E.
  apply bind_inv in E as [(sites & h1 & E1 & E2)|(e & _ & ?)]; [|done].
  apply getattr_ref_inv in E1 as [Hs ->].
  apply bind_inv in E2 as [(xs & h2 & E2 & E3)|(e & _ & ?)]; [|done].
  pose proof (items_heap _ _ _ _ E2) as ->.
  assert (h !! sites = Some (Array1 xs)) as Hxs.
  { unfold items in E2. repeat case_match; by simplify_eq. }
  unfold np_array, alloc in E3. simplify_eq.
  exists (map f xs). split; [done|]. split; [done|].
  intros h1 Hpre.
  exact (Interpolation_call_run self sites f h1 xs
           (has_attr_preserved _ _ _ _ _ Hpre Hs) (Hpre _ _ Hxs)).
Qed.

(** Two arrays allocated one after the other are two arrays. *)
Lemma fresh_after_insert (h : heap) (o : pyobj) :
  fresh (dom h) ≠ fresh (dom (<[fresh (dom h) := o]> h)).
Proof.
  intros Heq.
  pose proof (fresh_unused (<[fresh (dom h) := o]> h)) as Hf.
  rewrite <- Heq in Hf. by rewrite lookup_insert_eq in Hf.
Qed.

(** ** [Integral.__init__] and [Interpolation.__init__] *)

Lemma setattr_again (self : loc) (name : string) (v : value) (h : heap)
    attrs :
  setattr self name v (<[self := Instance attrs]> h)
  = (Ok tt, <[self := Instance (<[name := v]> attrs)]> h).
Proof. unfold setattr. by rewrite lookup_insert_eq, insert_insert_eq. Qed.

Lemma Integral_init_run (self : loc) (p n : Z) (T : loc) (kind : string)
    (k : option Z) (h : heap) (grid : loc) (g : list R) (points weights : loc)
    (h3 : heap) attrs :
  quadrature_built p n T kind (default (p + 1)%Z k) h grid g points weights h3 →
  h3 !! self = Some (Instance attrs) →
  Integral_init self p n T kind k h
  = (Ok tt, <[self := Instance (Integral_attrs attrs grid kind p n T
                                   points weights)]> h3).
Proof.
  intros [u w h1 h2 Hgrid Hgl Hg Hq] Hself. unfold Integral_init.
  assert (∀ K : option loc → M unit,
    ((if decide (kind = "natural")
      then g ← construct_grid_from_knots p n T; mret (Some g)
      else mret None) ≫= (λ grid0,
     (if decide (kind = "greville")
      then g ← compute_greville p n T; mret (Some g)
      else mret grid0) ≫= K)) h = K (Some grid) h1) as Hsel.
  { intros K. destruct Hgrid as [Hn|Hv].
    - rewrite decide_True by done.
      rewrite bind_run, (bind_ok _ _ _ _ _ Hn).
      unfold mret at 1, M_ret at 1. cbv beta iota.
      by rewrite decide_False by done.
    - rewrite decide_False by done.
      rewrite bind_run. unfold mret at 1, M_ret at 1. cbv beta iota.
      rewrite decide_True by done.
      by rewrite bind_run, (bind_ok _ _ _ _ _ Hv). }
  assert (bool_decide (kind ∈ ["natural"; "greville"]) = true) as ->.
  { apply bool_decide_eq_true_2. destruct Hgrid; repeat constructor. }
  rewrite bind_run. simpl py_assert. unfold mret at 1, M_ret at 1.
  rewrite Hsel.
  rewrite bind_run. destruct k as [k|]; simpl in Hgl, Hq; rewrite Hgl;
    (rewrite bind_run; simpl local; unfold mret at 1, M_ret at 1;
     rewrite bind_run; unfold len at 1; rewrite Hg;
     rewrite bind_run, Hq;
     rewrite bind_run, (setattr_run _ _ _ _ _ Hself);
     do 5 (rewrite bind_run, setattr_again);
     by rewrite setattr_again).
Qed.

Lemma Interpolation_init_run (self : loc) (p n : Z) (T : loc)
    (sites : option loc) (h h1 : heap) (s : loc) attrs :
  match sites with
  | None => compute_greville p n T h = (Ok s, h1)
  | Some s' => s = s' ∧ h1 = h
  end →
  h1 !! self = Some (Instance attrs) →
  Interpolation_init self p n T sites h
  = (Ok tt, <[self := Instance (<["_T" := VRef T]> (<["_n" := VInt n]>
             (<["_p" := VInt p]> (<["_sites" := VRef s]> attrs))))]> h1).
Proof.
  intros Hs Hself. unfold Interpolation_init.
  assert (match sites with
          | None => compute_greville p n T
          | Some s0 => mret s0
          end h = (Ok s, h1)) as E.
  { destruct sites as [s'|]; [by destruct Hs as [-> ->]|done]. }
  rewrite (bind_ok _ _ _ _ _ E).
  rewrite bind_run, (setattr_run _ _ _ _ _ Hself).
  do 2 (rewrite bind_run, setattr_again).
  by rewrite setattr_again.
Qed.

Lemma Integral_attrs_lookup (attrs : gmap string value) (grid : loc)
    (kind : string) (p n : Z) (T points weights : loc) :
  let a := Integral_attrs attrs grid kind p n T points weights in
  a !! "_grid" = Some (VRef grid) ∧ a !! "_kind" = Some (VStr kind)
  ∧ a !! "_p" = Some (VInt p) ∧ a !! "_n" = Some (VInt n)
  ∧ a !! "_T" = Some (VRef T) ∧ a !! "_points" = Some (VRef points)
  ∧ a !! "_weights" = Some (VRef weights).
Proof.
  unfold Integral_attrs. cbv zeta.
  repeat split; repeat (rewrite lookup_insert_ne by done);
    by rewrite lookup_insert_eq.
Qed.

Lemma has_attr_insert (h : heap) (self : loc) attrs (name : string) v :
  attrs !! name = Some v → has_attr (<[self := Instance attrs]> h) self name v.
Proof. intros E. exists attrs. by rewrite lookup_insert_eq. Qed.

(** Construction followed by a call: the call returns one integral per
    element of the quadrature grid the constructor stored. *)
Lemma Integral_init_then_call (self : loc) (p n : Z) (T : loc) (kind : string)
    (k : option Z) (h : heap) (grid : loc) (g : list R) (points weights : loc)
    (h3 : heap) attrs (nk ne : nat) (P W : nat → nat → R) (f : R → R) :
  quadrature_built p n T kind (default (p + 1)%Z k) h grid g points weights h3 →
  h3 !! self = Some (Instance attrs) →
  quadrature_grid h3 points weights nk ne P W →
  ∃ h', Integral_init self p n T kind k h = (Ok tt, h')
    ∧ has_attr h' self "_grid" (VRef grid)
    ∧ has_attr h' self "_kind" (VStr kind)
    ∧ ∃ r, Integral_call self f h'
           = (Ok r, <[r := Array1 (map (element_integral nk P W f)
                                       (range ne))]> h')
         ∧ h' !! r = None.
Proof.
  intros Hq Hself [HP HW].
  eexists. split; [by eapply Integral_init_run|].
  pose proof (Integral_attrs_lookup attrs grid kind p n T points weights)
    as (Hgrid & Hkind & _ & _ & _ & Hpts & Hwts).
  split; [by apply has_attr_insert|]. split; [by apply has_attr_insert|].
  eexists. split; [|apply fresh_unused].
  apply (Integral_call_run self points weights);
    [by apply has_attr_insert..|].
  split; (rewrite lookup_insert_ne by congruence); done.
Qed.

(** * The properties of the specification *)

(** C4.  For every quadrature grid [(points, weights)] with
    [ne = points.shape[1]] elements and every scalar function [f],
    [integrate(points, weights, f)] returns a new array of exactly [ne]
    scalars, and its entry for element [ie] is the sum over the quadrature
    index [i] of [weights[i, ie] * f(points[i, ie])]. *)
Theorem integrate_element_integrals (points weights : loc) (f : R → R)
    (h : heap) (k ne : nat) (P W : nat → nat → R) :
  quadrature_grid h points weights k ne P W →
  ∃ (r : loc) (out : list R),
    integrate points weights f h = (Ok r, <[r := Array1 out]> h)
    ∧ h !! r = None
    ∧ length out = ne
    ∧ ∀ ie, ie < ne → out !! ie = Some (element_integral k P W f ie).
Proof.
  intros [HP HW].
  exists (fresh (dom h)), (map (element_integral k P W f) (range ne)).
  split; [|split; [apply fresh_unused|split]].
  - rewrite (integrate_run _ _ _ _ _ _ _ _ _ _ HP HW) by done.
    do 3 f_equal. apply map_ext. intros ie. apply weighted_sum_columns.
  - unfold range. by rewrite length_map, length_seq.
  - intros ie Hie. unfold range.
    by rewrite list_lookup_fmap, lookup_seq_lt.
Qed.

(** C5.  [Integral.__init__] never compares the quadrature order [k] with
    [p + 1]: for every [k], also below [p + 1], construction returns as soon
    as the collaborators do, with the quadrature grid built for order [k] from
    the Gauss-Legendre rule asked for with [k - 1]; and when [k] is omitted
    ([None]) the constructor behaves as for [k = p + 1]. *)
Theorem Integral_quadrature_order_unchecked :
  (∀ (self : loc) (p n : Z) (T : loc) (kind : string) (h : heap),
     Integral_init self p n T kind None h
     = Integral_init self p n T kind (Some (p + 1)%Z) h)
  ∧ (∀ (self : loc) (p n : Z) (T : loc) (kind : string) (k : Z) (h : heap)
       (grid : loc) (g : list R) (points weights : loc) (h3 : heap) attrs,
       quadrature_built p n T kind k h grid g points weights h3 →
       h3 !! self = Some (Instance attrs) →
       ∃ h', Integral_init self p n T kind (Some k) h = (Ok tt, h')
         ∧ has_attr h' self "_points" (VRef points)
         ∧ has_attr h' self "_weights" (VRef weights))
  ∧ (∀ (self : loc) (p n : Z) (T : loc) (kind : string) (h : heap)
       (grid : loc) (g : list R) (points weights : loc) (h3 : heap) attrs,
       quadrature_built p n T kind (p + 1)%Z h grid g points weights h3 →
       h3 !! self = Some (Instance attrs) →
       ∃ h', Integral_init self p n T kind None h = (Ok tt, h')
         ∧ has_attr h' self "_points" (VRef points)
         ∧ has_attr h' self "_weights" (VRef weights)).
Proof.
  split; [done|].
  split; intros; eexists;
    (split; [by eapply Integral_init_run|]);
    (split; apply has_attr_insert, Integral_attrs_lookup).
Qed.

(** C6.  [Integral.__init__] with a [kind] outside
    [{'natural', 'greville'}] raises [AssertionError] with the store as it
    was: no collaborator has run, no grid or quadrature state is built and no
    attribute is set.  With a [kind] in that set the assertion passes:
    construction returns as soon as the collaborators do. *)
Theorem Integral_kind_asserted :
  (∀ (self : loc) (p n : Z) (T : loc) (kind : string) (k : option Z)
     (h : heap),
     kind ∉ ["natural"; "greville"] →
     Integral_init self p n T kind k h = (Raise AssertionError, h))
  ∧ (∀ (self : loc) (p n : Z) (T : loc) (kind : string) (k : option Z)
       (h : heap) (grid : loc) (g : list R) (points weights : loc)
       (h3 : heap) attrs,
       kind ∈ ["natural"; "greville"] →
       quadrature_built p n T kind (default (p + 1)%Z k) h grid g
         points weights h3 →
       h3 !! self = Some (Instance attrs) →
       ∃ h', Integral_init self p n T kind k h = (Ok tt, h')
         ∧ has_attr h' self "_kind" (VStr kind)).
Proof.
  split.
  - intros self p n T kind k h Hkind. unfold Integral_init.
    rewrite bind_run. by rewrite bool_decide_eq_false_2.
  - intros. eexists. split; [by eapply Integral_init_run|].
    apply has_attr_insert, Integral_attrs_lookup.
Qed.

(** C7.  Calling an [Interpolation] with [f] returns a new array holding
    [f(x)] for each site [x], in site order, one entry per site; and when
    [sites] is omitted ([None]) at construction, the sites are what
    [compute_greville(p, n, T)] returns: the Greville abscissae of the
    spline space. *)
Theorem Interpolation_evaluates_at_sites :
  (∀ (self sites : loc) (f : R → R) (h : heap) (xs : list R),
     has_attr h self "_sites" (VRef sites) →
     h !! sites = Some (Array1 xs) →
     ∃ (r : loc) (out : list R),
       Interpolation_call self f h = (Ok r, <[r := Array1 out]> h)
       ∧ h !! r = None
       ∧ out = map f xs
       ∧ length out = length xs
       ∧ ∀ i x, xs !! i = Some x → out !! i = Some (f x))
  ∧ (∀ (self : loc) (p n : Z) (T : loc) (h h1 : heap) (greville : loc) attrs,
       compute_greville p n T h = (Ok greville, h1) →
       h1 !! self = Some (Instance attrs) →
       ∃ h', Interpolation_init self p n T None h = (Ok tt, h')
         ∧ has_attr h' self "_sites" (VRef greville)
         ∧ ∀ l, l ≠ self → h' !! l = h1 !! l).
Proof.
  split.
  - intros self sites f h xs Hs Hxs.
    exists (fresh (dom h)), (map f xs).
    split; [by eapply Interpolation_call_run|].
    split; [apply fresh_unused|]. split; [done|].
    split; [by rewrite length_map|].
    intros i x Hi. by rewrite list_lookup_fmap, Hi.
  - intros self p n T h h1 greville attrs Hg Hself.
    eexists. split; [by eapply (Interpolation_init_run _ _ _ _ None)|].
    split.
    + apply has_attr_insert.
      repeat (rewrite lookup_insert_ne by done). by rewrite lookup_insert_eq.
    + intros l Hl. by rewrite lookup_insert_ne.
Qed.

(** C8.  Two calls of the same [Integral], or of the same [Interpolation],
    with the same function yield identical output arrays: whenever a call
    returns, the next call, run on the store the first one left, returns
    too, with another array holding the same entries, and the first array
    still holds them. *)
Theorem call_twice_identical_output :
  (∀ (self : loc) (f : R → R) (h h1 : heap) (r1 : loc),
     Integral_call self f h = (Ok r1, h1) →
     ∃ (r2 : loc) (h2 : heap) (out : list R),
       Integral_call self f h1 = (Ok r2, h2)
       ∧ r1 ≠ r2
       ∧ h1 !! r1 = Some (Array1 out)
       ∧ h2 !! r1 = Some (Array1 out)
       ∧ h2 !! r2 = Some (Array1 out))
  ∧ (∀ (self : loc) (f : R → R) (h h1 : heap) (r1 : loc),
       Interpolation_call self f h = (Ok r1, h1) →
       ∃ (r2 : loc) (h2 : heap) (out : list R),
         Interpolation_call self f h1 = (Ok r2, h2)
         ∧ r1 ≠ r2
         ∧ h1 !! r1 = Some (Array1 out)
         ∧ h2 !! r1 = Some (Array1 out)
         ∧ h2 !! r2 = Some (Array1 out)).
Proof.
  split; intros self f h h1 r1 E.
  - destruct (Integral_call_again _ _ _ _ _ E) as (out & -> & -> & Hagain).
    set (r1 := fresh (dom h)). set (h1 := <[r1 := Array1 out]> h).
    assert (preserves h h1) as Hpre
      by apply preserves_insert_fresh, fresh_unused.
    assert (r1 ≠ fresh (dom h1)) as Hne by apply fresh_after_insert.
    exists (fresh (dom h1)), (<[fresh (dom h1) := Array1 out]> h1), out.
    split; [by apply Hagain|]. split; [done|].
    assert (h1 !! r1 = Some (Array1 out)) as H1
      by (unfold h1; by rewrite lookup_insert_eq).
    split; [done|]. split; [by rewrite lookup_insert_ne|].
    by rewrite lookup_insert_eq.
  - destruct (Interpolation_call_again _ _ _ _ _ E)
      as (out & -> & -> & Hagain).
    set (r1 := fresh (dom h)). set (h1 := <[r1 := Array1 out]> h).
    assert (preserves h h1) as Hpre
      by apply preserves_insert_fresh, fresh_unused.
    assert (r1 ≠ fresh (dom h1)) as Hne by apply fresh_after_insert.
    exists (fresh (dom h1)), (<[fresh (dom h1) := Array1 out]> h1), out.
    split; [by apply Hagain|]. split; [done|].
    assert (h1 !! r1 = Some (Array1 out)) as H1
      by (unfold h1; by rewrite lookup_insert_eq).
    split; [done|]. split; [by rewrite lookup_insert_ne|].
    by rewrite lookup_insert_eq.
Qed.

(** C9.  A call of an [Integral] or of an [Interpolation], with any function
    and whatever its outcome, leaves every object of the store as it was: the
    instance keeps every attribute with its value, and the arrays the
    attributes refer to keep their contents.  The call only reads them; what
    it writes is the array it allocates. *)
Theorem call_leaves_store_unchanged :
  (∀ (self : loc) (f : R → R) (h h' : heap) (res : result loc),
     Integral_call self f h = (res, h') →
     (∀ l o, h !! l = Some o → h' !! l = Some o)
     ∧ (∀ name v, has_attr h self name v → has_attr h' self name v))
  ∧ (∀ (self : loc) (f : R → R) (h h' : heap) (res : result loc),
       Interpolation_call self f h = (res, h') →
       (∀ l o, h !! l = Some o → h' !! l = Some o)
       ∧ (∀ name v, has_attr h self name v → has_attr h' self name v)).
Proof.
  split; intros self f h h' res E.
  - apply Integral_call_preserves in E. split; [exact E|].
    intros name v. by apply has_attr_preserved.
  - apply Interpolation_call_preserves in E. split; [exact E|].
    intros name v. by apply has_attr_preserved.
Qed.

(** C10.  An [Integral] of kind ['greville'] takes its grid from
    [compute_greville(p, n, T)], whatever [construct_grid_from_knots] would
    do, and a call returns [len(grid) - 1] integrals: the number of Greville
    points minus one; an [Integral] of kind ['natural'] takes its grid from
    [construct_grid_from_knots(p, n, T)], and a call returns one integral per
    element of that grid.  Here [construct_quadrature_grid], asked for
    [len(grid) - 1] elements, returns arrays with that many columns. *)
Theorem Integral_grid_by_kind :
  (∀ (self : loc) (p n : Z) (T : loc) (k : option Z) (f : R → R)
     (h h1 h2 h3 : heap) (grid u w points weights : loc) (g : list R) attrs
     (nk ne : nat) (P W : nat → nat → R),
     compute_greville p n T h = (Ok grid, h1) →
     gauss_legendre (default (p + 1)%Z k - 1)%Z h1 = (Ok (u, w), h2) →
     h2 !! grid = Some (Array1 g) →
     construct_quadrature_grid (Z.of_nat (length g) - 1)%Z
       (default (p + 1)%Z k) u w grid h2 = (Ok (points, weights), h3) →
     h3 !! self = Some (Instance attrs) →
     quadrature_grid h3 points weights nk ne P W →
     Z.of_nat ne = (Z.of_nat (length g) - 1)%Z →
     ∃ (h' : heap) (r : loc) (out : list R),
       Integral_init self p n T "greville" k h = (Ok tt, h')
       ∧ has_attr h' self "_grid" (VRef grid)
       ∧ Integral_call self f h' = (Ok r, <[r := Array1 out]> h')
       ∧ h' !! r = None
       ∧ Z.of_nat (length out) = (Z.of_nat (length g) - 1)%Z)
  ∧ (∀ (self : loc) (p n : Z) (T : loc) (k : option Z) (f : R → R)
       (h h1 h2 h3 : heap) (grid u w points weights : loc) (g : list R) attrs
       (nk ne : nat) (P W : nat → nat → R),
       construct_grid_from_knots p n T h = (Ok grid, h1) →
       gauss_legendre (default (p + 1)%Z k - 1)%Z h1 = (Ok (u, w), h2) →
       h2 !! grid = Some (Array1 g) →
       construct_quadrature_grid (Z.of_nat (length g) - 1)%Z
         (default (p + 1)%Z k) u w grid h2 = (Ok (points, weights), h3) →
       h3 !! self = Some (Instance attrs) →
       quadrature_grid h3 points weights nk ne P W →
       Z.of_nat ne = (Z.of_nat (length g) - 1)%Z →
       ∃ (h' : heap) (r : loc) (out : list R),
         Integral_init self p n T "natural" k h = (Ok tt, h')
         ∧ has_attr h' self "_grid" (VRef grid)
         ∧ Integral_call self f h' = (Ok r, <[r := Array1 out]> h')
         ∧ h' !! r = None
         ∧ Z.of_nat (length out) = (Z.of_nat (length g) - 1)%Z).
Proof.
  split;
    intros self p n T k f h h1 h2 h3 grid u w points weights g attrs
      nk ne P W Hgrid Hgl Hg Hq Hself HPW Hne.
  - destruct (Integral_init_then_call self p n T "greville" k h grid g
                points weights h3 attrs nk ne P W f)
      as (h' & Einit & Hattr & _ & r & Ecall & Hr); [|done|done|].
    { econstructor; [by apply grid_greville|done..]. }
    exists h', r, (map (element_integral nk P W f) (range ne)).
    repeat split; [done..|].
    unfold range. by rewrite length_map, length_seq.
  - destruct (Integral_init_then_call self p n T "natural" k h grid g
                points weights h3 attrs nk ne P W f)
      as (h' & Einit & Hattr & _ & r & Ecall & Hr); [|done|done|].
    { econstructor; [by apply grid_natural|done..]. }
    exists h', r, (map (element_integral nk P W f) (range ne)).
    repeat split; [done..|].
    unfold range. by rewrite length_map, length_seq.
Qed.

(** * Further properties of [integrate] *)

Lemma preserves_trans (h1 h2 h3 : heap) :
  preserves h1 h2 → preserves h2 h3 → preserves h1 h3.
Proof. intros H12 H23 l o E. by apply H23, H12. Qed.

Lemma for_app {A} (xs ys : list A) (body : A → M unit) (h : heap) :
  for_ (xs ++ ys) body h = (for_ xs body ;; for_ ys body) h.
Proof.
  revert h. induction xs as [|x xs IH]; intros h; [done|].
  simpl. rewrite !bind_run. destruct (body x h) as [[[]|e] h1]; [|done].
  by rewrite IH.
Qed.

Lemma py_sum_seq (t : nat → R) (m : nat) :
  py_sum (map t (seq 0 m)) = quadrature_sum m t.
Proof.
  induction m as [|m IH]; [done|].
  rewrite seq_S, map_app. simpl. by rewrite py_sum_snoc, IH.
Qed.

(** [zip] stops at the shorter of its two arguments. *)
Lemma zip_with_columns (g : R → R → R) (a b : nat → R) (j ka kb : nat) :
  zip_with g (map a (seq j ka)) (map b (seq j kb))
  = map (λ i, g (a i) (b i)) (seq j (ka `min` kb)).
Proof.
  revert j kb. induction ka as [|ka IH]; intros j kb; [done|].
  destruct kb as [|kb]; [done|]. simpl. f_equal. apply IH.
Qed.

Lemma weighted_sum_truncates (f : R → R) (P W : nat → nat → R)
    (kp kw ie : nat) :
  weighted_sum f (map (λ i, P i ie) (range kp)) (map (λ i, W i ie) (range kw))
  = element_integral (kp `min` kw) P W f ie.
Proof.
  unfold weighted_sum, element_integral, range.
  rewrite (zip_with_columns (λ x w, mul w (f x))).
  apply (py_sum_seq (λ i, mul (W i ie) (f (P i ie)))).
Qed.

Lemma quadrature_sum_ext (t t' : nat → R) (k : nat) :
  (∀ i, i < k → t i = t' i) → quadrature_sum k t = quadrature_sum k t'.
Proof.
  induction k as [|k IH]; intros Ht; [done|].
  simpl. rewrite IH by (intros i Hi; apply Ht; lia).
  by rewrite Ht by lia.
Qed.

Section Shortage.
Variables (points weights r : loc) (f : R → R) (h : heap).
Variables (kp ne kw nw : nat) (P W : nat → nat → R).
Hypothesis Hpoints : h !! points = Some (Array2 kp ne P).
Hypothesis Hweights : h !! weights = Some (Array2 kw nw W).
Hypothesis Hr : h !! r = None.

(** The loop over the first elements, the rest of the array left alone. *)
Lemma integrate_loop_prefix (m j : nat) (done rest : list R) :
  j + m ≤ ne → j + m ≤ nw → length done = j →
  for_ (seq j m)
    (λ ie, X ← getcol points ie;
           Wc ← getcol weights ie;
           setitem r ie (weighted_sum f X Wc))
    (<[r := Array1 (done ++ replicate m zero ++ rest)]> h)
  = (Ok tt,
     <[r := Array1
         (done
          ++ map (λ ie, weighted_sum f (map (λ i, P i ie) (range kp))
                                       (map (λ i, W i ie) (range kw)))
                 (seq j m)
          ++ rest)]> h).
Proof using Hpoints Hweights Hr.
  revert j done. induction m as [|m IH]; intros j done Hne Hnw Hlen.
  - done.
  - simpl. rewrite bind_run.
    rewrite (integrate_body_step points weights r f h kp ne kw nw P W
               Hpoints Hweights Hr) by (done || lia).
    specialize (IH (S j)
      (done ++ [weighted_sum f (map (λ i, P i j) (range kp))
                               (map (λ i, W i j) (range kw))])).
    rewrite <- !app_assoc in IH. simpl in IH.
    apply IH; [lia|lia|]. rewrite length_app. simpl. lia.
Qed.

(** The element past the last column of [weights]. *)
Lemma integrate_body_shortage (hc : heap) :
  nw < ne →
  hc !! points = Some (Array2 kp ne P) →
  hc !! weights = Some (Array2 kw nw W) →
  (X ← getcol points nw;
   Wc ← getcol weights nw;
   setitem r nw (weighted_sum f X Wc)) hc = (Raise IndexError, hc).
Proof using Type.
  intros Hlt HP HW.
  rewrite bind_run. unfold getcol at 1. rewrite HP.
  rewrite decide_True by done.
  rewrite bind_run. unfold getcol at 1. rewrite HW.
  by rewrite decide_False by lia.
Qed.
End Shortage.

(** X1.  When [weights] has fewer columns than [points], [integrate] raises
    [IndexError], at the first element [weights] has no column for; the
    objects of the store are as they were. *)
Theorem integrate_column_shortage (points weights : loc) (f : R → R)
    (h : heap) (kp ne kw nw : nat) (P W : nat → nat → R) :
  h !! points = Some (Array2 kp ne P) →
  h !! weights = Some (Array2 kw nw W) →
  nw < ne →
  ∃ h', integrate points weights f h = (Raise IndexError, h')
        ∧ ∀ l o, h !! l = Some o → h' !! l = Some o.
Proof.
  intros HP HW Hlt.
  pose proof (fresh_unused h) as Hr. set (r := fresh (dom h)) in *.
  assert (points ≠ r) as Hpr by congruence.
  assert (weights ≠ r) as Hwr by congruence.
  assert (integrate points weights f h
          = (Raise IndexError,
             <[r := Array1
                 (map (λ ie, weighted_sum f (map (λ i, P i ie) (range kp))
                                            (map (λ i, W i ie) (range kw)))
                      (seq 0 nw)
                  ++ replicate (ne - nw) zero)]> h)) as E.
  { unfold integrate.
    rewrite bind_run. unfold shape_1 at 1. rewrite HP.
    rewrite bind_run. unfold np_zeros, alloc. fold r.
    rewrite bind_run. unfold range.
    replace ne with (nw + (ne - nw)) at 1 by lia.
    rewrite seq_app, for_app, bind_run.
    replace (replicate ne zero)
      with ([] ++ replicate nw zero ++ replicate (ne - nw) zero)
      by (simpl; rewrite <- replicate_add; f_equal; lia).
    rewrite (integrate_loop_prefix points weights r f h kp ne kw nw P W
               HP HW Hr nw 0 [] (replicate (ne - nw) zero))
      by (done || lia).
    simpl app.
    destruct (ne - nw) as [|d] eqn:Hd; [lia|].
    rewrite <- cons_seq. simpl for_. rewrite bind_run.
    rewrite (integrate_body_shortage points weights r f kp ne kw nw P W)
      by (done || by rewrite lookup_insert_ne).
    done. }
  eexists. split; [exact E|].
  by apply preserves_insert_fresh.
Qed.

(** X2.  Where [points] and [weights] differ in their number of rows, or
    [weights] has more columns than [points], [integrate] does not raise:
    [zip] stops at the shorter column, so each entry sums over the first
    [min] rows only, and the columns of [weights] past [ne] are not read. *)
Theorem integrate_truncates (points weights : loc) (f : R → R) (h : heap)
    (kp ne kw nw : nat) (P W : nat → nat → R) :
  h !! points = Some (Array2 kp ne P) →
  h !! weights = Some (Array2 kw nw W) →
  ne ≤ nw →
  ∃ (r : loc) (out : list R),
    integrate points weights f h = (Ok r, <[r := Array1 out]> h)
    ∧ h !! r = None
    ∧ length out = ne
    ∧ ∀ ie, ie < ne →
        out !! ie = Some (element_integral (kp `min` kw) P W f ie).
Proof.
  intros HP HW Hle.
  exists (fresh (dom h)),
    (map (element_integral (kp `min` kw) P W f) (range ne)).
  split; [|split; [apply fresh_unused|split]].
  - rewrite (integrate_run _ _ _ _ _ _ _ _ _ _ HP HW Hle).
    do 3 f_equal. apply map_ext. intros ie. apply weighted_sum_truncates.
  - unfold range. by rewrite length_map, length_seq.
  - intros ie Hie. unfold range.
    by rewrite list_lookup_fmap, lookup_seq_lt.
Qed.

(** X3.  On a grid without elements ([points.shape[1] = 0]) [integrate]
    returns an empty array and never looks at [weights], whatever it refers
    to; with a rule without nodes (no row in [points] or in [weights]) every
    integral is the [0] the sum starts from. *)
Theorem integrate_empty :
  (∀ (points weights : loc) (f : R → R) (h : heap) (kp : nat)
     (P : nat → nat → R),
     h !! points = Some (Array2 kp 0 P) →
     ∃ r, integrate points weights f h = (Ok r, <[r := Array1 []]> h)
          ∧ h !! r = None)
  ∧ (∀ (points weights : loc) (f : R → R) (h : heap) (kp ne kw nw : nat)
       (P W : nat → nat → R),
       h !! points = Some (Array2 kp ne P) →
       h !! weights = Some (Array2 kw nw W) →
       ne ≤ nw →
       kp = 0 ∨ kw = 0 →
       ∃ r, integrate points weights f h
            = (Ok r, <[r := Array1 (replicate ne zero)]> h)
            ∧ h !! r = None).
Proof.
  split.
  - intros points weights f h kp P HP. exists (fresh (dom h)).
    split; [by eapply integrate_run_empty|apply fresh_unused].
  - intros points weights f h kp ne kw nw P W HP HW Hle Hk.
    exists (fresh (dom h)). split; [|apply fresh_unused].
    rewrite (integrate_run _ _ _ _ _ _ _ _ _ _ HP HW Hle).
    do 3 f_equal.
    rewrite (map_ext _ (element_integral (kp `min` kw) P W f))
      by (intros ie; apply weighted_sum_truncates).
    replace (kp `min` kw) with 0 by lia.
    unfold element_integral, range. simpl quadrature_sum.
    generalize 0. clear. induction ne as [|ne IH]; intros j; [done|].
    simpl. f_equal. apply IH.
Qed.

(** X4.  [integrate] uses [f] at the quadrature points only: two functions
    that agree at every entry of [points] give the same run. *)
Theorem integrate_samples_points (points weights : loc) (f g : R → R)
    (h : heap) (kp ne kw nw : nat) (P W : nat → nat → R) :
  h !! points = Some (Array2 kp ne P) →
  h !! weights = Some (Array2 kw nw W) →
  ne ≤ nw →
  (∀ i ie, i < kp → ie < ne → f (P i ie) = g (P i ie)) →
  integrate points weights f h = integrate points weights g h.
Proof.
  intros HP HW Hle Hfg.
  rewrite !(integrate_run _ _ _ _ _ _ _ _ _ _ HP HW Hle).
  do 3 f_equal. unfold range.
  apply list_eq. intros ie. rewrite !list_lookup_fmap.
  destruct (seq 0 ne !! ie) as [x|] eqn:Hx; [|done]. simpl. f_equal.
  apply lookup_seq in Hx as [-> Hlt]. simpl.
  rewrite !weighted_sum_truncates. unfold element_integral.
  apply quadrature_sum_ext. intros i Hi. by rewrite Hfg by lia.
Qed.

(** * Further properties of the classes *)

(** A computation that leaves every object of the store as it is, whatever
    it returns: it may allocate, it does not mutate. *)
Definition frame_safe {A} (m : M A) : Prop :=
  ∀ h res h', m h = (res, h') → preserves h h'.

(** A computation that never raises [e]. *)
Definition never_raises {A} (e : exn) (m : M A) : Prop :=
  ∀ h h', m h ≠ (Raise e, h').

Lemma frame_safe_mret {A} (a : A) : frame_safe (mret a : M A).
Proof.
  intros h res h' E. unfold mret, M_ret in E. simplify_eq.
  apply preserves_refl.
Qed.

Lemma frame_safe_raise {A} (e : exn) : frame_safe (raise e : M A).
Proof.
  intros h res h' E. unfold raise in E. simplify_eq. apply preserves_refl.
Qed.

Lemma frame_safe_bind {A B} (m : M A) (k : A → M B) :
  frame_safe m → (∀ a, frame_safe (k a)) → frame_safe (m ≫= k).
Proof.
  intros Hm Hk h res h' E.
  apply bind_inv in E as [(a & h1 & E1 & E2)|(e & E1 & _)].
  - eapply preserves_trans; [by eapply Hm|by eapply Hk].
  - by eapply Hm.
Qed.

Lemma frame_safe_alloc (o : pyobj) : frame_safe (alloc o).
Proof.
  intros h res h' E. unfold alloc in E. simplify_eq.
  apply preserves_insert_fresh, fresh_unused.
Qed.

Lemma frame_safe_items (a : loc) : frame_safe (items a).
Proof.
  intros h res h' E. apply items_heap in E as ->. apply preserves_refl.
Qed.

Lemma frame_safe_len (a : loc) : frame_safe (len a).
Proof.
  intros h res h' E. unfold len in E.
  repeat case_match; simplify_eq; apply preserves_refl.
Qed.

Lemma frame_safe_py_assert (b : bool) : frame_safe (py_assert b).
Proof.
  destruct b; [apply (frame_safe_mret tt)|apply frame_safe_raise].
Qed.

Lemma frame_safe_local {A} (x : option A) : frame_safe (local x).
Proof. destruct x; [apply frame_safe_mret|apply frame_safe_raise]. Qed.

Lemma never_raises_mret {A} (e : exn) (a : A) : never_raises e (mret a : M A).
Proof. intros h h' E. unfold mret, M_ret in E. by simplify_eq. Qed.

Lemma never_raises_raise {A} (e e' : exn) :
  e' ≠ e → never_raises e (raise e' : M A).
Proof. intros Hne h h' E. unfold raise in E. by simplify_eq. Qed.

Lemma never_raises_bind {A B} (e : exn) (m : M A) (k : A → M B) :
  never_raises e m → (∀ a, never_raises e (k a)) → never_raises e (m ≫= k).
Proof.
  intros Hm Hk h h' E.
  apply bind_inv in E as [(a & h1 & E1 & E2)|(e' & E1 & ?)].
  - by eapply Hk.
  - simplify_eq. by eapply Hm.
Qed.

Lemma never_raises_alloc (e : exn) (o : pyobj) : never_raises e (alloc o).
Proof. intros h h' E. unfold alloc in E. by simplify_eq. Qed.

Lemma never_raises_items (e : exn) (a : loc) :
  e ≠ TypeError → never_raises e (items a).
Proof.
  intros Hne h h' E. unfold items in E. repeat case_match; by simplify_eq.
Qed.

(** One step of a run whose head is frame safe. *)
Lemma bind_frame {A B} (m : M A) (k : A → M B) (h h' : heap)
    (res : result B) :
  frame_safe m →
  (m ≫= k) h = (res, h') →
  (∃ e, res = Raise e ∧ preserves h h')
  ∨ (∃ a h1, preserves h h1 ∧ k a h1 = (res, h')).
Proof.
  intros Hm E. apply bind_inv in E as [(a & h1 & E1 & E2)|(e & E1 & ->)].
  - right. exists a, h1. split; [by eapply Hm|done].
  - left. exists e. split; [done|by eapply Hm].
Qed.

(** The seven assignments at the end of [Integral.__init__]: all of them, or
    none. *)
Lemma Integral_set_attrs_inv (self grid : loc) (kind : string) (p n : Z)
    (T points weights : loc) (h3 h' : heap) (res : result unit) :
  (setattr self "_grid" (VRef grid);;
   setattr self "_kind" (VStr kind);;
   setattr self "_p" (VInt p);;
   setattr self "_n" (VInt n);;
   setattr self "_T" (VRef T);;
   setattr self "_points" (VRef points);;
   setattr self "_weights" (VRef weights)) h3 = (res, h') →
  (∃ attrs, h3 !! self = Some (Instance attrs) ∧ res = Ok tt
     ∧ h' = <[self := Instance (Integral_attrs attrs grid kind p n T
                                  points weights)]> h3)
  ∨ (res = Raise AttributeError ∧ h' = h3).
Proof.
  destruct (h3 !! self) as [o|] eqn:Hs; [destruct o as [d|a b c|attrs]|].
  3: { intros E. left. exists attrs. split; [done|].
       rewrite bind_run, (setattr_run _ _ _ _ _ Hs) in E.
       do 5 (rewrite bind_run, setattr_again in E).
       rewrite setattr_again in E. by simplify_eq. }
  all: intros E; right; rewrite bind_run in E;
    unfold setattr at 1 in E; rewrite Hs in E; by simplify_eq.
Qed.

Lemma Interpolation_set_attrs_inv (self sites : loc) (p n : Z) (T : loc)
    (h1 h' : heap) (res : result unit) :
  (setattr self "_sites" (VRef sites);;
   setattr self "_p" (VInt p);;
   setattr self "_n" (VInt n);;
   setattr self "_T" (VRef T)) h1 = (res, h') →
  (∃ attrs, h1 !! self = Some (Instance attrs) ∧ res = Ok tt
     ∧ h' = <[self := Instance (<["_T" := VRef T]> (<["_n" := VInt n]>
               (<["_p" := VInt p]> (<["_sites" := VRef sites]> attrs))))]> h1)
  ∨ (res = Raise AttributeError ∧ h' = h1).
Proof.
  destruct (h1 !! self) as [o|] eqn:Hs; [destruct o as [d|a b c|attrs]|].
  3: { intros E. left. exists attrs. split; [done|].
       rewrite bind_run, (setattr_run _ _ _ _ _ Hs) in E.
       do 2 (rewrite bind_run, setattr_again in E).
       rewrite setattr_again in E. by simplify_eq. }
  all: intros E; right; rewrite bind_run in E;
    unfold setattr at 1 in E; rewrite Hs in E; by simplify_eq.
Qed.

Lemma preserves_insert_other (h h1 : heap) (self : loc) (o : pyobj) :
  preserves h h1 →
  ∀ l o', l ≠ self → h !! l = Some o' → <[self := o]> h1 !! l = Some o'.
Proof. intros Hpre l o' Hl E. rewrite lookup_insert_ne by done. by apply Hpre. Qed.

Lemma frame_safe_np_array (xs : list R) : frame_safe (np_array xs).
Proof. apply frame_safe_alloc. Qed.

Lemma never_raises_np_array (e : exn) (xs : list R) :
  never_raises e (np_array xs).
Proof. apply never_raises_alloc. Qed.

Lemma Integral_init_frame :
  (∀ p n T, frame_safe (construct_grid_from_knots p n T)) →
  (∀ p n T, frame_safe (compute_greville p n T)) →
  (∀ m, frame_safe (gauss_legendre m)) →
  (∀ ne k u w grid, frame_safe (construct_quadrature_grid ne k u w grid)) →
  ∀ (self : loc) (p n : Z) (T : loc) (kind : string) (k : option Z)
    (h h' : heap) (res : result unit),
    Integral_init self p n T kind k h = (res, h') →
    (∀ l o, l ≠ self → h !! l = Some o → h' !! l = Some o)
    ∧ (∀ e, res = Raise e → ∀ l o, h !! l = Some o → h' !! l = Some o).
Proof.
  intros Hcgk Hcg Hgl Hcqg self p n T kind k h h' res E.
  assert (∀ hc, preserves h hc → hc = h' →
            (∀ l o, l ≠ self → h !! l = Some o → h' !! l = Some o)
            ∧ (∀ e, res = Raise e → ∀ l o, h !! l = Some o → h' !! l = Some o))
    as Hdone.
  { intros hc Hpre <-. split; [|done]. intros l o _. apply Hpre. }
  unfold Integral_init in E.
  apply (bind_frame _ _ _ _ _ (frame_safe_py_assert _)) in E
    as [(e & -> & Hp0)|([] & h0 & Hp0 & E)];
    [by apply (Hdone h' Hp0 eq_refl)|].
  apply bind_frame in E as [(e & -> & Hp1)|(g1 & h1 & Hp1 & E)]; cycle 2.
  { destruct (decide (kind = "natural"));
      [apply frame_safe_bind; [apply Hcgk|intros; apply frame_safe_mret]
      |apply frame_safe_mret]. }
  { apply (Hdone h' (preserves_trans _ _ _ Hp0 Hp1) eq_refl). }
  pose proof (preserves_trans _ _ _ Hp0 Hp1) as Hacc1.
  apply bind_frame in E as [(e & -> & Hp2)|(g2 & h2 & Hp2 & E)]; cycle 2.
  { destruct (decide (kind = "greville"));
      [apply frame_safe_bind; [apply Hcg|intros; apply frame_safe_mret]
      |apply frame_safe_mret]. }
  { apply (Hdone h' (preserves_trans _ _ _ Hacc1 Hp2) eq_refl). }
  pose proof (preserves_trans _ _ _ Hacc1 Hp2) as Hacc2.
  apply (bind_frame _ _ _ _ _ (Hgl _)) in E
    as [(e & -> & Hp3)|([u w] & h3 & Hp3 & E)];
    [apply (Hdone h' (preserves_trans _ _ _ Hacc2 Hp3) eq_refl)|].
  pose proof (preserves_trans _ _ _ Hacc2 Hp3) as Hacc3.
  apply (bind_frame _ _ _ _ _ (frame_safe_local _)) in E
    as [(e & -> & Hp4)|(grid & h4 & Hp4 & E)];
    [apply (Hdone h' (preserves_trans _ _ _ Hacc3 Hp4) eq_refl)|].
  pose proof (preserves_trans _ _ _ Hacc3 Hp4) as Hacc4.
  apply (bind_frame _ _ _ _ _ (frame_safe_len _)) in E
    as [(e & -> & Hp5)|(lg & h5 & Hp5 & E)];
    [apply (Hdone h' (preserves_trans _ _ _ Hacc4 Hp5) eq_refl)|].
  pose proof (preserves_trans _ _ _ Hacc4 Hp5) as Hacc5.
  apply (bind_frame _ _ _ _ _ (Hcqg _ _ _ _ _)) in E
    as [(e & -> & Hp6)|([points weights] & h6 & Hp6 & E)];
    [apply (Hdone h' (preserves_trans _ _ _ Hacc5 Hp6) eq_refl)|].
  pose proof (preserves_trans _ _ _ Hacc5 Hp6) as Hacc6.
  apply Integral_set_attrs_inv in E
    as [(attrs & Hs & -> & ->)|[-> ->]];
    [|apply (Hdone h6 Hacc6 eq_refl)].
  split; [|done]. by apply preserves_insert_other.
Qed.

(** X5.  [Integral.__init__] sets its attributes last and all at once: with
    collaborators that mutate nothing, a construction that raises leaves
    every object of the store, the instance included, as it was, and a
    construction that returns has changed the instance only. *)
Theorem Integral_init_all_or_nothing :
  (∀ p n T, frame_safe (construct_grid_from_knots p n T)) →
  (∀ p n T, frame_safe (compute_greville p n T)) →
  (∀ m, frame_safe (gauss_legendre m)) →
  (∀ ne k u w grid, frame_safe (construct_quadrature_grid ne k u w grid)) →
  ∀ (self : loc) (p n : Z) (T : loc) (kind : string) (k : option Z)
    (h h' : heap) (res : result unit),
    Integral_init self p n T kind k h = (res, h') →
    (∀ l o, l ≠ self → h !! l = Some o → h' !! l = Some o)
    ∧ (∀ e, res = Raise e → ∀ l o, h !! l = Some o → h' !! l = Some o).
Proof. exact Integral_init_frame. Qed.

(** X6.  The assertion on [kind] makes the two conditional assignments of
    [grid] exhaustive: [Integral.__init__] never reads [grid] unassigned, so
    it raises [UnboundLocalError] only if a collaborator does. *)
Theorem Integral_grid_always_bound :
  (∀ p n T, never_raises UnboundLocalError (construct_grid_from_knots p n T)) →
  (∀ p n T, never_raises UnboundLocalError (compute_greville p n T)) →
  (∀ m, never_raises UnboundLocalError (gauss_legendre m)) →
  (∀ ne k u w grid,
     never_raises UnboundLocalError (construct_quadrature_grid ne k u w grid)) →
  ∀ (self : loc) (p n : Z) (T : loc) (kind : string) (k : option Z),
    never_raises UnboundLocalError (Integral_init self p n T kind k).
Proof.
  intros Hcgk Hcg Hgl Hcqg self p n T kind k h h' E.
  unfold Integral_init in E.
  apply bind_inv in E as [([] & h0 & E0 & E)|(e & E0 & ?)]; cycle 1.
  { unfold py_assert in E0. case_match; unfold mret, M_ret, raise in E0;
      simplify_eq. }
  assert (kind = "natural" ∨ kind = "greville") as Hkind.
  { unfold py_assert in E0. case_bool_decide as Hin;
      [|unfold raise in E0; simplify_eq].
    apply elem_of_cons in Hin as [?|Hin]; [by left|].
    apply elem_of_cons in Hin as [?|Hin]; [by right|].
    by apply elem_of_nil in Hin. }
  clear E0.
  apply bind_inv in E as [(g1 & h1 & E1 & E)|(e & E1 & ?)]; cycle 1.
  { simplify_eq. case_decide.
    - apply bind_inv in E1 as [(g & hg & Eg & E1)|(e' & Eg & ?)];
        [unfold mret, M_ret in E1; simplify_eq|].
      simplify_eq. by eapply Hcgk.
    - unfold mret, M_ret in E1. simplify_eq. }
  apply bind_inv in E as [(g2 & h2 & E2 & E)|(e & E2 & ?)]; cycle 1.
  { simplify_eq. case_decide.
    - apply bind_inv in E2 as [(g & hg & Eg & E2)|(e' & Eg & ?)];
        [unfold mret, M_ret in E2; simplify_eq|].
      simplify_eq. by eapply Hcg.
    - unfold mret, M_ret in E2. simplify_eq. }
  assert (is_Some g2) as [grid ->].
  { destruct Hkind as [->| ->].
    - rewrite decide_True in E1 by done. rewrite decide_False in E2 by done.
      apply bind_inv in E1 as [(g & hg & Eg & E1)|(e' & Eg & ?)]; [|done].
      unfold mret, M_ret in E1, E2. simplify_eq. eauto.
    - rewrite decide_True in E2 by done.
      apply bind_inv in E2 as [(g & hg & Eg & E2)|(e' & Eg & ?)]; [|done].
      unfold mret, M_ret in E2. simplify_eq. eauto. }
  clear E1 E2.
  apply bind_inv in E as [([u w] & h3 & E3 & E)|(e & E3 & ?)]; cycle 1.
  { simplify_eq. by eapply Hgl. }
  apply bind_inv in E as [(grid' & h4 & E4 & E)|(e & E4 & ?)]; cycle 1.
  { simpl in E4. unfold mret, M_ret in E4. simplify_eq. }
  apply bind_inv in E as [(lg & h5 & E5 & E)|(e & E5 & ?)]; cycle 1.
  { unfold len in E5. repeat case_match; simplify_eq. }
  apply bind_inv in E as [([points weights] & h6 & E6 & E)|(e & E6 & ?)];
    cycle 1.
  { simplify_eq. by eapply Hcqg. }
  apply Integral_set_attrs_inv in E as [(attrs & _ & ? & _)|[? _]]; done.
Qed.

(** X7.  [Interpolation.__init__] with the sites given never raises and
    never calls [compute_greville]: whatever [sites] refers to, it is stored
    as it is, with [p], [n] and [T], and nothing else in the store changes.
    Nothing relates the sites to [p], [n] or [T]. *)
Theorem Interpolation_init_given_sites (self : loc) (p n : Z) (T sites : loc)
    (h : heap) attrs :
  h !! self = Some (Instance attrs) →
  ∃ h', Interpolation_init self p n T (Some sites) h = (Ok tt, h')
    ∧ has_attr h' self "_sites" (VRef sites)
    ∧ has_attr h' self "_p" (VInt p)
    ∧ has_attr h' self "_n" (VInt n)
    ∧ has_attr h' self "_T" (VRef T)
    ∧ ∀ l, l ≠ self → h' !! l = h !! l.
Proof.
  intros Hself. eexists.
  split; [by apply (Interpolation_init_run self p n T (Some sites) h h sites)|].
  repeat split; try (apply has_attr_insert;
    repeat (rewrite lookup_insert_ne by done); by rewrite lookup_insert_eq).
  intros l Hl. by rewrite lookup_insert_ne.
Qed.

(** X8.  An [Interpolation] holds the sites it was given by reference, not a
    copy: an entry of the caller's sequence that is assigned after the
    construction is the one the next call evaluates [f] at. *)
Theorem Interpolation_sites_by_reference (self : loc) (p n : Z)
    (T sites : loc) (h : heap) attrs (xs : list R) (i : nat) (v : R)
    (f : R → R) :
  h !! self = Some (Instance attrs) →
  h !! sites = Some (Array1 xs) →
  i < length xs →
  ∃ (h1 h2 : heap) (r : loc),
    Interpolation_init self p n T (Some sites) h = (Ok tt, h1)
    ∧ setitem sites i v h1 = (Ok tt, h2)
    ∧ Interpolation_call self f h2
      = (Ok r, <[r := Array1 (map f (<[i := v]> xs))]> h2)
    ∧ h2 !! r = None.
Proof.
  intros Hself Hsites Hi.
  assert (sites ≠ self) as Hne by congruence.
  eexists _, _, _.
  split; [by apply (Interpolation_init_run self p n T (Some sites) h h sites)|].
  split.
  { unfold setitem. rewrite lookup_insert_ne, Hsites by done.
    by rewrite decide_True by done. }
  split; [|apply fresh_unused].
  apply (Interpolation_call_run self sites).
  - exists (<["_T" := VRef T]> (<["_n" := VInt n]> (<["_p" := VInt p]>
              (<["_sites" := VRef sites]> attrs)))).
    split.
    + rewrite lookup_insert_ne by done. by rewrite lookup_insert_eq.
    + repeat (rewrite lookup_insert_ne by done). by rewrite lookup_insert_eq.
  - by rewrite lookup_insert_eq.
Qed.

Lemma Interpolation_init_frame :
  (∀ p n T, frame_safe (compute_greville p n T)) →
  ∀ (self : loc) (p n : Z) (T : loc) (sites : option loc) (h h' : heap)
    (res : result unit),
    Interpolation_init self p n T sites h = (res, h') →
    (∀ l o, l ≠ self → h !! l = Some o → h' !! l = Some o)
    ∧ (∀ e, res = Raise e → ∀ l o, h !! l = Some o → h' !! l = Some o).
Proof.
  intros Hcg self p n T sites h h' res E. unfold Interpolation_init in E.
  apply bind_frame in E as [(e & -> & Hp)|(s & h1 & Hp & E)]; cycle 2.
  { destruct sites; [apply frame_safe_mret|apply Hcg]. }
  { split; [|done]. intros l o _. apply Hp. }
  apply Interpolation_set_attrs_inv in E as [(attrs & Hs & -> & ->)|[-> ->]].
  - split; [|done]. by apply preserves_insert_other.
  - split; [|done]. intros l o _. apply Hp.
Qed.

(** X9.  [Interpolation.__init__] sets its attributes last: when
    [compute_greville] mutates nothing, a construction that raises leaves
    every object of the store as it was, and a construction that returns has
    changed the instance only. *)
Theorem Interpolation_init_all_or_nothing :
  (∀ p n T, frame_safe (compute_greville p n T)) →
  ∀ (self : loc) (p n : Z) (T : loc) (sites : option loc) (h h' : heap)
    (res : result unit),
    Interpolation_init self p n T sites h = (res, h') →
    (∀ l o, l ≠ self → h !! l = Some o → h' !! l = Some o)
    ∧ (∀ e, res = Raise e → ∀ l o, h !! l = Some o → h' !! l = Some o).
Proof. exact Interpolation_init_frame. Qed.

(** X10.  An instance whose construction raised cannot be called: with
    collaborators that mutate nothing, a call on it raises [AttributeError],
    for it has no [_points] (or no [_sites]), and the store is left as the
    failed construction left it. *)
Theorem call_after_failed_init :
  (∀ p n T, frame_safe (construct_grid_from_knots p n T)) →
  (∀ p n T, frame_safe (compute_greville p n T)) →
  (∀ m, frame_safe (gauss_legendre m)) →
  (∀ ne k u w grid, frame_safe (construct_quadrature_grid ne k u w grid)) →
  (∀ (self : loc) (p n : Z) (T : loc) (kind : string) (k : option Z)
     (f : R → R) (h h1 : heap) (e : exn) attrs,
     h !! self = Some (Instance attrs) →
     attrs !! "_points" = None →
     Integral_init self p n T kind k h = (Raise e, h1) →
     Integral_call self f h1 = (Raise AttributeError, h1))
  ∧ (∀ (self : loc) (p n : Z) (T : loc) (sites : option loc) (f : R → R)
       (h h1 : heap) (e : exn) attrs,
       h !! self = Some (Instance attrs) →
       attrs !! "_sites" = None →
       Interpolation_init self p n T sites h = (Raise e, h1) →
       Interpolation_call self f h1 = (Raise AttributeError, h1)).
Proof.
  intros Hcgk Hcg Hgl Hcqg. split.
  - intros self p n T kind k f h h1 e attrs Hself Hattr E.
    destruct (Integral_init_frame Hcgk Hcg Hgl Hcqg
                self p n T kind k h h1 (Raise e) E) as [_ Hpre].
    specialize (Hpre e eq_refl self _ Hself).
    unfold Integral_call. rewrite bind_run, bind_run.
    unfold getattr at 1. by rewrite Hpre, Hattr.
  - intros self p n T sites f h h1 e attrs Hself Hattr E.
    destruct (Interpolation_init_frame Hcg
                self p n T sites h h1 (Raise e) E) as [_ Hpre].
    specialize (Hpre e eq_refl self _ Hself).
    unfold Interpolation_call. rewrite bind_run, bind_run.
    unfold getattr at 1. by rewrite Hpre, Hattr.
Qed.

(** X11.  After a construction that returns, the instance holds the seven
    attributes with the grid, the kind, [p], [n], the knot vector as it was
    passed (the reference, no copy), the points and the weights; an attribute
    of another name that the instance had is kept, and no other object is
    changed after the collaborators returned. *)
Theorem Integral_init_attributes (self : loc) (p n : Z) (T : loc)
    (kind : string) (k : option Z) (h : heap) (grid : loc) (g : list R)
    (points weights : loc) (h3 : heap) attrs :
  quadrature_built p n T kind (default (p + 1)%Z k) h grid g points weights h3 →
  h3 !! self = Some (Instance attrs) →
  ∃ h', Integral_init self p n T kind k h = (Ok tt, h')
    ∧ has_attr h' self "_grid" (VRef grid)
    ∧ has_attr h' self "_kind" (VStr kind)
    ∧ has_attr h' self "_p" (VInt p)
    ∧ has_attr h' self "_n" (VInt n)
    ∧ has_attr h' self "_T" (VRef T)
    ∧ has_attr h' self "_points" (VRef points)
    ∧ has_attr h' self "_weights" (VRef weights)
    ∧ (∀ name v,
         name ∉ ["_grid"; "_kind"; "_p"; "_n"; "_T"; "_points"; "_weights"] →
         attrs !! name = Some v → has_attr h' self name v)
    ∧ ∀ l, l ≠ self → h' !! l = h3 !! l.
Proof.
  intros Hq Hself. eexists. split; [by eapply Integral_init_run|].
  pose proof (Integral_attrs_lookup attrs grid kind p n T points weights)
    as (H1 & H2 & H3 & H4 & H5 & H6 & H7).
  do 7 (split; [by apply has_attr_insert|]).
  split.
  - intros name v Hname Hv. apply has_attr_insert. unfold Integral_attrs.
    repeat (rewrite lookup_insert_ne;
            [|intros <-; apply Hname; repeat constructor]).
    done.
  - intros l Hl. by rewrite lookup_insert_ne.
Qed.

(** X12.  A call of an [Integral] reads the instance, its points and its
    weights, and nothing else: on any store that holds the same three
    objects (the knot vector, the grid or anything else may differ) it
    returns the same integrals. *)
Theorem Integral_call_reads_three (self points weights : loc) (f : R → R)
    (h h2 : heap) (k ne : nat) (P W : nat → nat → R) :
  has_attr h self "_points" (VRef points) →
  has_attr h self "_weights" (VRef weights) →
  quadrature_grid h points weights k ne P W →
  h2 !! self = h !! self →
  h2 !! points = h !! points →
  h2 !! weights = h !! weights →
  ∃ (r r2 : loc) (out : list R),
    Integral_call self f h = (Ok r, <[r := Array1 out]> h)
    ∧ Integral_call self f h2 = (Ok r2, <[r2 := Array1 out]> h2)
    ∧ length out = ne.
Proof.
  intros (a1 & Hs1 & Ha1) (a2 & Hs2 & Ha2) [HP HW] Eself Epts Ewts.
  exists (fresh (dom h)), (fresh (dom h2)),
    (map (element_integral k P W f) (range ne)).
  split; [|split].
  - apply (Integral_call_run self points weights);
      [by exists a1|by exists a2|done].
  - apply (Integral_call_run self points weights).
    + exists a1. by rewrite Eself.
    + exists a2. by rewrite Eself.
    + split; [by rewrite Epts|by rewrite Ewts].
  - unfold range. by rewrite length_map, length_seq.
Qed.

End Store.

(** * The derivative operators of the discrete complex

    [psydac.feec.derivatives] is used by the tests and is not among the
    sources; its operators are modelled from the specification, in exact
    rational arithmetic, with the sign conventions of the continuous
    derivatives the tests project ([cf1], [cf2], [cf3] and [difun] in
    [test_commuting_projections.py]). *)
Module Derivatives.

Local Open Scope Z_scope.
Local Open Scope Q_scope.

(** Modelled from the spec: one axis of a tensor-product spline space, as far
    as the derivative stencil needs it: the number of coefficients along the
    axis, whether the axis is periodic, and the knot spacing [Δknot[i]]. *)
Record axis : Type := {
  ncoef : Z;
  periodic : bool;
  dknot : Z → Q
}.

(** Modelled from the spec: the index the stencil pairs [i] with.  Periodic
    axes wrap the difference stencil; on a clamped axis the stencil is
    one-sided, [i - 1]. *)
Definition prev (ax : axis) (i : Z) : Z :=
  if periodic ax then ((i - 1) mod ncoef ax)%Z else (i - 1)%Z.

(** the indices of the coefficients of an axis of the source space *)
Definition in_source (ax : axis) (i : Z) : bool :=
  (0 <=? i)%Z && (i <? ncoef ax)%Z.

(** the indices of the coefficients of that axis in the target space: all of
    them on a periodic axis, one fewer on a clamped axis *)
Definition in_target (ax : axis) (i : Z) : bool :=
  if periodic ax then in_source ax i else (1 <=? i)%Z && (i <? ncoef ax)%Z.

(** Modelled from the spec: the per-axis one-dimensional stencil of the
    missing [DerivativeOperator]s, [(c[i] − c[i−1]) / Δknot[i]]. *)
Definition diff (ax : axis) (c : Z → Q) (i : Z) : Q :=
  (c i - c (prev ax i)) / dknot ax i.

(** a coefficient array over three axes, and over two *)
Definition array3 : Type := Z → Z → Z → Q.
Definition array2 : Type := Z → Z → Q.

Section Complex.

Variables ax1 ax2 ax3 : axis.

(** Modelled from the spec: the stencil along one axis of a coefficient
    array, the other indices left untouched. *)
Definition D1 (c : array3) : array3 := λ i j k, diff ax1 (λ x, c x j k) i.
Definition D2 (c : array3) : array3 := λ i j k, diff ax2 (λ x, c i x k) j.
Definition D3 (c : array3) : array3 := λ i j k, diff ax3 (λ x, c i j x) k.

(** Modelled from the spec: the missing [Gradient_3D], [Curl_3D] and
    [Divergence_3D], per-axis stencils combined with the signs of the
    exterior derivative. *)
Definition Gradient_3D (c : array3) : array3 * array3 * array3 :=
  (D1 c, D2 c, D3 c).

Definition Curl_3D (u : array3 * array3 * array3)
    : array3 * array3 * array3 :=
  let '(u1, u2, u3) := u in
  (λ i j k, D2 u3 i j k - D3 u2 i j k,
   λ i j k, D3 u1 i j k - D1 u3 i j k,
   λ i j k, D1 u2 i j k - D2 u1 i j k).

Definition Divergence_3D (u : array3 * array3 * array3) : array3 :=
  let '(u1, u2, u3) := u in
  λ i j k, D1 u1 i j k + D2 u2 i j k + D3 u3 i j k.

(** Modelled from the spec: the two-dimensional operators, missing as well:
    [Gradient_2D], [ScalarCurl_2D], [VectorCurl_2D] and [Divergence_2D]. *)
Definition E1 (c : array2) : array2 := λ i j, diff ax1 (λ x, c x j) i.
Definition E2 (c : array2) : array2 := λ i j, diff ax2 (λ x, c i x) j.

Definition Gradient_2D (c : array2) : array2 * array2 := (E1 c, E2 c).

Definition ScalarCurl_2D (u : array2 * array2) : array2 :=
  let '(u1, u2) := u in λ i j, E1 u2 i j - E2 u1 i j.

Definition VectorCurl_2D (c : array2) : array2 * array2 :=
  (E2 c, λ i j, - E1 c i j).

Definition Divergence_2D (u : array2 * array2) : array2 :=
  let '(u1, u2) := u in λ i j, E1 u1 i j + E2 u2 i j.

(** every entry of a coefficient array is zero *)
Definition zero3 (c : array3) : Prop := ∀ i j k, c i j k == 0.
Definition zero2 (c : array2) : Prop := ∀ i j, c i j == 0.

End Complex.

(** Four coefficients with knot spacing [1/4], periodic and clamped. *)
Definition periodic4 : axis :=
  {| ncoef := 4; periodic := true; dknot := λ _, 1 # 4 |}.
Definition clamped4 : axis :=
  {| ncoef := 4; periodic := false; dknot := λ _, 1 # 4 |}.

(** On the coefficients [0, 1, 4, 9] the periodic stencil at [0] pairs [c[0]]
    with [c[3]]; the clamped stencil at [1] pairs [c[1]] with [c[0]]. *)
Example diff_wraps :
  Qeq_bool (diff periodic4 (λ i, inject_Z (i * i)) 0) (- (36)) = true.
Proof. vm_compute. reflexivity. Qed.

Example diff_one_sided :
  Qeq_bool (diff clamped4 (λ i, inject_Z (i * i)) 1) 4 = true.
Proof. vm_compute. reflexivity. Qed.

(** The stencil at an index of the target space reads coefficients of the
    source space only. *)
Lemma prev_in_source (ax : axis) (i : Z) :
  in_target ax i = true → in_source ax (prev ax i) = true.
Proof.
  unfold in_target, in_source, prev. destruct (periodic ax).
  - intros [H1 H2]%andb_prop.
    apply Z.leb_le in H1. apply Z.ltb_lt in H2.
    pose proof (Z.mod_pos_bound (i - 1) (ncoef ax) ltac:(lia)).
    apply andb_true_intro. split; [apply Z.leb_le|apply Z.ltb_lt]; lia.
  - intros [H1 H2]%andb_prop.
    apply Z.leb_le in H1. apply Z.ltb_lt in H2.
    apply andb_true_intro. split; [apply Z.leb_le|apply Z.ltb_lt]; lia.
Qed.

Lemma in_target_in_source (ax : axis) (i : Z) :
  in_target ax i = true → in_source ax i = true.
Proof.
  unfold in_target, in_source. destruct (periodic ax); [done|].
  intros [H1 H2]%andb_prop.
  apply Z.leb_le in H1. apply Z.ltb_lt in H2.
  apply andb_true_intro. split; [apply Z.leb_le|apply Z.ltb_lt]; lia.
Qed.

(** The stencil is a map between finite coefficient vectors: its entries in
    the target space depend on the entries of the source space only. *)
Lemma diff_local (ax : axis) (c c' : Z → Q) (i : Z) :
  (∀ x, in_source ax x = true → c x == c' x) →
  in_target ax i = true →
  diff ax c i == diff ax c' i.
Proof.
  intros Hc Hi. unfold diff.
  rewrite (Hc i) by (by apply in_target_in_source).
  rewrite (Hc (prev ax i)) by (by apply prev_in_source).
  reflexivity.
Qed.

(** The stencils of two different axes commute. *)
Lemma D1_D2_commute (ax1 ax2 : axis) (c : array3) (i j k : Z) :
  D1 ax1 (D2 ax2 c) i j k == D2 ax2 (D1 ax1 c) i j k.
Proof. unfold D1, D2, diff, Qdiv. ring. Qed.

Lemma D1_D3_commute (ax1 ax3 : axis) (c : array3) (i j k : Z) :
  D1 ax1 (D3 ax3 c) i j k == D3 ax3 (D1 ax1 c) i j k.
Proof. unfold D1, D3, diff, Qdiv. ring. Qed.

Lemma D2_D3_commute (ax2 ax3 : axis) (c : array3) (i j k : Z) :
  D2 ax2 (D3 ax3 c) i j k == D3 ax3 (D2 ax2 c) i j k.
Proof. unfold D2, D3, diff, Qdiv. ring. Qed.

Lemma E1_E2_commute (ax1 ax2 : axis) (c : array2) (i j : Z) :
  E1 ax1 (E2 ax2 c) i j == E2 ax2 (E1 ax1 c) i j.
Proof. unfold E1, E2, diff, Qdiv. ring. Qed.

(** C3.  For every coefficient vector of the source space, the divergence of
    the curl and the curl of the gradient are the zero coefficient vector, in
    three dimensions and in both two-dimensional complexes; in exact
    arithmetic every entry is zero, from the per-axis stencils alone. *)
Theorem derivative_complex_exact (ax1 ax2 ax3 : axis) :
  (∀ u : array3 * array3 * array3,
     zero3 (Divergence_3D ax1 ax2 ax3 (Curl_3D ax1 ax2 ax3 u)))
  ∧ (∀ c : array3,
       let '(w1, w2, w3) := Curl_3D ax1 ax2 ax3 (Gradient_3D ax1 ax2 ax3 c) in
       zero3 w1 ∧ zero3 w2 ∧ zero3 w3)
  ∧ (∀ c : array2, zero2 (ScalarCurl_2D ax1 ax2 (Gradient_2D ax1 ax2 c)))
  ∧ (∀ c : array2, zero2 (Divergence_2D ax1 ax2 (VectorCurl_2D ax1 ax2 c))).
Proof.
  repeat split.
  - intros [[u1 u2] u3] i j k.
    unfold Divergence_3D, Curl_3D, D1, D2, D3, diff, Qdiv. ring.
  - intros i j k. unfold D1, D2, D3, diff, Qdiv. ring.
  - intros i j k. unfold D1, D2, D3, diff, Qdiv. ring.
  - intros i j k. unfold D1, D2, D3, diff, Qdiv. ring.
  - intros c i j. unfold ScalarCurl_2D, Gradient_2D, E1, E2, diff, Qdiv. ring.
  - intros c i j.
    unfold Divergence_2D, VectorCurl_2D, E1, E2, diff, Qdiv. ring.
Qed.

End Derivatives.

(** * A run on rationals

    The classes are run on rational scalars with stand-ins for the
    collaborators: Greville abscissae and breakpoints read off the knot
    vector, a tabulated rule with rounded nodes, and the affine map of the
    rule onto each element of the grid. *)
Module Demo.

Local Open Scope Q_scope.

Definition sum_Q (xs : list Q) : Q := fold_left Qplus xs 0.

(** the Greville abscissae: averages of [p] consecutive knots *)
Definition demo_greville (p n : Z) (T : loc) : @M Q loc :=
  knots ← items T;
  np_array (map (λ i, Qred (sum_Q (take (Z.to_nat p) (drop (S i) knots))
                            / inject_Z p))
                (seq 0 (Z.to_nat n))).

(** the breakpoints of an open knot vector without repeated interior knots *)
Definition demo_grid_from_knots (p n : Z) (T : loc) : @M Q loc :=
  knots ← items T;
  np_array (take (Z.to_nat (n - p + 1)) (drop (Z.to_nat p) knots)).

(** rules with [m + 1] nodes on [[-1, 1]], nodes rounded to six digits *)
Definition demo_gauss_legendre (m : Z) : @M Q (loc * loc) :=
  match m with
  | 0%Z =>
      u ← np_array [0]; w ← np_array [2]; mret (u, w)
  | 1%Z =>
      u ← np_array [- (577350 # 1000000); 577350 # 1000000];
      w ← np_array [1; 1]; mret (u, w)
  | 2%Z =>
      u ← np_array [- (774597 # 1000000); 0; 774597 # 1000000];
      w ← np_array [5 # 9; 8 # 9; 5 # 9]; mret (u, w)
  | _ => raise (ExternalError "rule not tabulated")
  end.

(** the rule mapped onto each of the [ne] elements of the grid *)
Definition demo_quadrature_grid (ne k : Z) (u w grid : loc)
    : @M Q (loc * loc) :=
  us ← items u;
  ws ← items w;
  gs ← items grid;
  let a ie := nth ie gs 0 in
  let b ie := nth (S ie) gs 0 in
  points ← alloc (Array2 (Z.to_nat k) (Z.to_nat ne)
              (λ i ie, Qred ((a ie + b ie) / 2 + (b ie - a ie) / 2 * nth i us 0)));
  weights ← alloc (Array2 (Z.to_nat k) (Z.to_nat ne)
               (λ i ie, Qred ((b ie - a ie) / 2 * nth i ws 0)));
  mret (points, weights).

(** the knot vector of degree [2] with [3] elements on [[0, 3]], at location
    [1], and a new instance at location [2] *)
Definition knots_at : loc := 1%positive.
Definition self_at : loc := 2%positive.

Definition start : gmap loc (@pyobj Q) :=
  <[self_at := Instance ∅]>
    (<[knots_at := Array1 [0; 0; 0; 1; 2; 3; 3; 3]]> ∅).

(** a quadrature grid with two nodes on three elements, and an instance that
    holds it *)
Definition nodes : nat → nat → Q := λ i ie, inject_Z (Z.of_nat (i + 2 * ie)).
Definition halves : nat → nat → Q := λ i ie, 1 # 2.

Definition built : gmap loc (@pyobj Q) :=
  <[3%positive := Instance (<["_weights" := VRef 2%positive]>
                            (<["_points" := VRef 1%positive]> ∅))]>
    (<[2%positive := Array2 2 3 halves]>
       (<[1%positive := Array2 2 3 nodes]> ∅)).

(** three sites and an [Interpolation] that holds them *)
Definition sited : gmap loc (@pyobj Q) :=
  <[2%positive := Instance (<["_sites" := VRef 1%positive]> ∅)]>
    (<[1%positive := Array1 [0; 1 # 2; 1]]> ∅).

Definition square (x : Q) : Q := x * x.

(** construct an [Integral] on the knot vector, call it, read the result *)
Definition run_Integral (kind : string) (k : option Z) (f : Q → Q)
    : result (list Q) :=
  match Integral_init demo_grid_from_knots demo_greville demo_gauss_legendre
          demo_quadrature_grid self_at 2 5 knots_at kind k start with
  | (Ok _, h) =>
      match Integral_call 0 Qplus Qmult self_at f h with
      | (Ok r, h') =>
          match h' !! r with
          | Some (Array1 out) => Ok (map Qred out)
          | _ => Raise TypeError
          end
      | (Raise e, _) => Raise e
      end
  | (Raise e, _) => Raise e
  end.

(** construct an [Interpolation] on the knot vector, call it, read the
    result *)
Definition run_Interpolation (f : Q → Q) : result (list Q) :=
  match Interpolation_init demo_greville self_at 2 5 knots_at None start with
  | (Ok _, h) =>
      match Interpolation_call self_at f h with
      | (Ok r, h') =>
          match h' !! r with
          | Some (Array1 out) => Ok (map Qred out)
          | _ => Raise TypeError
          end
      | (Raise e, _) => Raise e
      end
  | (Raise e, _) => Raise e
  end.

(** The integrals of [x] over the elements [[0,1]], [[1,2]], [[2,3]] of the
    grid of the knots, with one node per element. *)
Example natural_one_node :
  run_Integral "natural" (Some 1%Z) (λ x, x) = Ok [1 # 2; 3 # 2; 5 # 2].
Proof. vm_compute. reflexivity. Qed.

(** The same over the Greville grid [0, 1/2, 3/2, 5/2, 3]: four elements. *)
Example greville_one_node :
  run_Integral "greville" (Some 1%Z) (λ x, x)
  = Ok [1 # 8; 1; 2; 11 # 8].
Proof. vm_compute. reflexivity. Qed.

(** With the order left out the rule has [p + 1 = 3] nodes. *)
Example natural_default_order :
  run_Integral "natural" None (λ x, x) = Ok [1 # 2; 3 # 2; 5 # 2].
Proof. vm_compute. reflexivity. Qed.

Example kind_rejected :
  run_Integral "simpson" None (λ x, x) = Raise AssertionError.
Proof. vm_compute. reflexivity. Qed.

(** [x²] at the Greville abscissae *)
Example squares_at_greville :
  run_Interpolation square = Ok [0; 1 # 4; 9 # 4; 25 # 4; 9].
Proof. vm_compute. reflexivity. Qed.

End Demo.

(** ** The theorems at the run *)

Section Witnesses.

Import Demo.
Local Open Scope Q_scope.

Ltac run := vm_compute; reflexivity.

Ltac decided := apply (bool_decide_unpack _); vm_compute; exact I.

Lemma integrate_element_integrals_witness :
  quadrature_grid built 1%positive 2%positive 2 3 nodes halves
  ∧ ∃ (r : loc) (out : list Q),
      integrate 0 Qplus Qmult 1%positive 2%positive square built
      = (Ok r, <[r := Array1 out]> built)
      ∧ built !! r = None
      ∧ length out = 3%nat
      ∧ ∀ ie, (ie < 3)%nat →
          out !! ie = Some (element_integral 0 Qplus Qmult 2 nodes halves
                              square ie).
Proof.
  assert (quadrature_grid built 1%positive 2%positive 2 3 nodes halves) as H
    by (split; run).
  split; [exact H|].
  exact (integrate_element_integrals 0 Qplus Qmult 1%positive 2%positive
           square built 2 3 nodes halves H).
Defined.

Lemma Integral_quadrature_order_unchecked_witness :
  (1 < 2 + 1)%Z
  ∧ (∃ (points weights : loc) h',
       Integral_init demo_grid_from_knots demo_greville demo_gauss_legendre
         demo_quadrature_grid self_at 2 5 knots_at "greville" (Some 1%Z) start
       = (Ok tt, h')
       ∧ has_attr h' self_at "_points" (VRef points)
       ∧ has_attr h' self_at "_weights" (VRef weights))
  ∧ (∃ (points weights : loc) h',
       Integral_init demo_grid_from_knots demo_greville demo_gauss_legendre
         demo_quadrature_grid self_at 2 5 knots_at "natural" None start
       = (Ok tt, h')
       ∧ has_attr h' self_at "_points" (VRef points)
       ∧ has_attr h' self_at "_weights" (VRef weights)).
Proof.
  split; [lia|]. split.
  - do 2 eexists.
    eapply (proj1 (proj2 (Integral_quadrature_order_unchecked
              demo_grid_from_knots demo_greville demo_gauss_legendre
              demo_quadrature_grid)) self_at 2%Z 5%Z knots_at "greville" 1%Z
              start).
    + econstructor; [apply grid_greville; run|run..].
    + run.
  - do 2 eexists.
    eapply (proj2 (proj2 (Integral_quadrature_order_unchecked
              demo_grid_from_knots demo_greville demo_gauss_legendre
              demo_quadrature_grid)) self_at 2%Z 5%Z knots_at "natural" start).
    + econstructor; [apply grid_natural; run|run..].
    + run.
Defined.

Lemma Integral_kind_asserted_witness :
  (("simpson" ∉ ["natural"; "greville"])
   ∧ Integral_init demo_grid_from_knots demo_greville demo_gauss_legendre
       demo_quadrature_grid self_at 2 5 knots_at "simpson" None start
     = (Raise AssertionError, start))
  ∧ (("natural" ∈ ["natural"; "greville"])
     ∧ ∃ h', Integral_init demo_grid_from_knots demo_greville
               demo_gauss_legendre demo_quadrature_grid self_at 2 5 knots_at
               "natural" None start
             = (Ok tt, h')
           ∧ has_attr h' self_at "_kind" (VStr "natural")).
Proof.
  assert ("simpson" ∉ ["natural"; "greville"]) as Hout by decided.
  assert ("natural" ∈ ["natural"; "greville"]) as Hin by decided.
  split; (split; [done|]).
  - exact (proj1 (Integral_kind_asserted demo_grid_from_knots demo_greville
                    demo_gauss_legendre demo_quadrature_grid)
             self_at 2%Z 5%Z knots_at "simpson" None start Hout).
  - eapply (proj2 (Integral_kind_asserted demo_grid_from_knots demo_greville
                     demo_gauss_legendre demo_quadrature_grid)
              self_at 2%Z 5%Z knots_at "natural" None start).
    + exact Hin.
    + econstructor; [apply grid_natural; run|run..].
    + run.
Defined.

Lemma Interpolation_evaluates_at_sites_witness :
  (∃ (r : loc) (out : list Q),
     Interpolation_call 2%positive square sited
     = (Ok r, <[r := Array1 out]> sited)
     ∧ sited !! r = None
     ∧ out = map square [0; 1 # 2; 1]
     ∧ length out = 3%nat
     ∧ ∀ i x, [0; 1 # 2; 1] !! i = Some x → out !! i = Some (square x))
  ∧ (∃ (greville : loc) h1 h',
       demo_greville 2 5 knots_at start = (Ok greville, h1)
       ∧ Interpolation_init demo_greville self_at 2 5 knots_at None start
         = (Ok tt, h')
       ∧ has_attr h' self_at "_sites" (VRef greville)
       ∧ ∀ l, l ≠ self_at → h' !! l = h1 !! l).
Proof.
  split.
  - eapply (proj1 (Interpolation_evaluates_at_sites demo_greville)
              2%positive 1%positive square sited).
    + eexists. split; run.
    + run.
  - assert (∃ greville h1,
              demo_greville 2 5 knots_at start = (Ok greville, h1)
              ∧ h1 !! self_at = Some (Instance ∅)) as (greville & h1 & E & Hs)
      by (do 2 eexists; split; run).
    exists greville, h1.
    destruct (proj2 (Interpolation_evaluates_at_sites demo_greville)
                self_at 2%Z 5%Z knots_at start h1 greville ∅ E Hs)
      as (h' & H').
    exists h'. split; [exact E|exact H'].
Defined.

Lemma call_twice_identical_output_witness :
  (∃ (r1 : loc) h1 (r2 : loc) h2 (out : list Q),
     Integral_call 0 Qplus Qmult 3%positive square built = (Ok r1, h1)
     ∧ Integral_call 0 Qplus Qmult 3%positive square h1 = (Ok r2, h2)
     ∧ r1 ≠ r2
     ∧ h1 !! r1 = Some (Array1 out)
     ∧ h2 !! r1 = Some (Array1 out)
     ∧ h2 !! r2 = Some (Array1 out))
  ∧ (∃ (r1 : loc) h1 (r2 : loc) h2 (out : list Q),
       Interpolation_call 2%positive square sited = (Ok r1, h1)
       ∧ Interpolation_call 2%positive square h1 = (Ok r2, h2)
       ∧ r1 ≠ r2
       ∧ h1 !! r1 = Some (Array1 out)
       ∧ h2 !! r1 = Some (Array1 out)
       ∧ h2 !! r2 = Some (Array1 out)).
Proof.
  split.
  - assert (∃ r1 h1, Integral_call 0 Qplus Qmult 3%positive square built
                     = (Ok r1, h1)) as (r1 & h1 & E)
      by (do 2 eexists; run).
    destruct (proj1 (call_twice_identical_output 0 Qplus Qmult)
                3%positive square built h1 r1 E) as (r2 & h2 & out & H).
    exists r1, h1, r2, h2, out. split; [exact E|exact H].
  - assert (∃ r1 h1, Interpolation_call 2%positive square sited
                     = (Ok r1, h1)) as (r1 & h1 & E)
      by (do 2 eexists; run).
    destruct (proj2 (call_twice_identical_output 0 Qplus Qmult)
                2%positive square sited h1 r1 E) as (r2 & h2 & out & H).
    exists r1, h1, r2, h2, out. split; [exact E|exact H].
Defined.

Lemma call_leaves_store_unchanged_witness :
  ((∀ l o, built !! l = Some o →
      (Integral_call 0 Qplus Qmult 3%positive square built).2 !! l = Some o)
   ∧ (∀ name v, has_attr built 3%positive name v →
        has_attr (Integral_call 0 Qplus Qmult 3%positive square built).2
          3%positive name v))
  ∧ ((∀ l o, sited !! l = Some o →
        (Interpolation_call 2%positive square sited).2 !! l = Some o)
     ∧ (∀ name v, has_attr sited 2%positive name v →
          has_attr (Interpolation_call 2%positive square sited).2
            2%positive name v)).
Proof.
  split.
  - exact (proj1 (call_leaves_store_unchanged 0 Qplus Qmult)
             3%positive square built _ _ (surjective_pairing _)).
  - exact (proj2 (call_leaves_store_unchanged 0 Qplus Qmult)
             2%positive square sited _ _ (surjective_pairing _)).
Defined.

Lemma Integral_grid_by_kind_witness :
  (∃ g : list Q, length g = 5%nat
     ∧ ∃ (grid : loc) h' (r : loc) (out : list Q),
         Integral_init demo_grid_from_knots demo_greville demo_gauss_legendre
           demo_quadrature_grid self_at 2 5 knots_at "greville" None start
         = (Ok tt, h')
         ∧ has_attr h' self_at "_grid" (VRef grid)
         ∧ Integral_call 0 Qplus Qmult self_at square h'
           = (Ok r, <[r := Array1 out]> h')
         ∧ h' !! r = None
         ∧ Z.of_nat (length out) = (Z.of_nat (length g) - 1)%Z)
  ∧ (∃ g : list Q, length g = 4%nat
       ∧ ∃ (grid : loc) h' (r : loc) (out : list Q),
           Integral_init demo_grid_from_knots demo_greville
             demo_gauss_legendre demo_quadrature_grid self_at 2 5 knots_at
             "natural" None start
           = (Ok tt, h')
           ∧ has_attr h' self_at "_grid" (VRef grid)
           ∧ Integral_call 0 Qplus Qmult self_at square h'
             = (Ok r, <[r := Array1 out]> h')
           ∧ h' !! r = None
           ∧ Z.of_nat (length out) = (Z.of_nat (length g) - 1)%Z).
Proof.
  split.
  - eexists. split; cycle 1.
    + eexists.
      eapply (proj1 (Integral_grid_by_kind 0 Qplus Qmult demo_grid_from_knots
                demo_greville demo_gauss_legendre demo_quadrature_grid)
                self_at 2%Z 5%Z knots_at None square start);
        [run|run|run|run|run|split; run|run].
    + run.
  - eexists. split; cycle 1.
    + eexists.
      eapply (proj2 (Integral_grid_by_kind 0 Qplus Qmult demo_grid_from_knots
                demo_greville demo_gauss_legendre demo_quadrature_grid)
                self_at 2%Z 5%Z knots_at None square start);
        [run|run|run|run|run|split; run|run].
    + run.
Defined.

End Witnesses.

(** * More runs on rationals *)
Module Runs.

Import Demo.
Local Open Scope Q_scope.

(** weights with fewer columns than [nodes] has, and weights with more rows
    and more columns *)
Definition narrow : gmap loc (@pyobj Q) :=
  <[2%positive := Array2 2 2 halves]> (<[1%positive := Array2 2 3 nodes]> ∅).

Definition wide : gmap loc (@pyobj Q) :=
  <[2%positive := Array2 3 4 halves]> (<[1%positive := Array2 2 3 nodes]> ∅).

(** a grid without elements, and nothing at location [2]; a rule without
    nodes *)
Definition no_element : gmap loc (@pyobj Q) :=
  <[1%positive := Array2 2 0 nodes]> ∅.

Definition no_node : gmap loc (@pyobj Q) :=
  <[2%positive := Array2 2 3 halves]> (<[1%positive := Array2 0 3 nodes]> ∅).

(** [x²], except at [100] *)
Definition square_but (x : Q) : Q := if Qeq_bool x 100 then 0 else x * x.

(** [built] after its owner has put a knot vector at location [4] *)
Definition built_later : gmap loc (@pyobj Q) :=
  <[4%positive := Array1 [0; 0; 1; 1]]> built.

(** three sites at location [1] and a new instance at location [2] *)
Definition unsited : gmap loc (@pyobj Q) :=
  <[2%positive := Instance ∅]> (<[1%positive := Array1 [0; 1 # 2; 1]]> ∅).

(** The stand-ins allocate and read; they mutate nothing. *)
Lemma demo_grid_from_knots_safe (p n : Z) (T : loc) :
  frame_safe (demo_grid_from_knots p n T).
Proof.
  apply frame_safe_bind; [apply frame_safe_items|].
  intros; apply frame_safe_np_array.
Qed.

Lemma demo_greville_safe (p n : Z) (T : loc) :
  frame_safe (demo_greville p n T).
Proof.
  apply frame_safe_bind; [apply frame_safe_items|].
  intros; apply frame_safe_np_array.
Qed.

Ltac safe :=
  repeat first
    [ apply frame_safe_np_array | apply frame_safe_alloc
    | apply frame_safe_items | apply frame_safe_mret | apply frame_safe_raise
    | (apply frame_safe_bind; [|intros]) ].

Lemma demo_gauss_legendre_safe (m : Z) : frame_safe (demo_gauss_legendre m).
Proof. unfold demo_gauss_legendre. repeat case_match; safe. Qed.

Lemma demo_quadrature_grid_safe (ne k : Z) (u w grid : loc) :
  frame_safe (demo_quadrature_grid ne k u w grid).
Proof. unfold demo_quadrature_grid. safe. Qed.

(** They raise [TypeError] or their own error, nothing else. *)
Ltac quiet :=
  repeat first
    [ apply never_raises_np_array | apply never_raises_alloc
    | (apply never_raises_items; done) | apply never_raises_mret
    | (apply never_raises_raise; done)
    | (apply never_raises_bind; [|intros]) ].

Lemma demo_grid_from_knots_quiet (p n : Z) (T : loc) :
  never_raises UnboundLocalError (demo_grid_from_knots p n T).
Proof. unfold demo_grid_from_knots. quiet. Qed.

Lemma demo_greville_quiet (p n : Z) (T : loc) :
  never_raises UnboundLocalError (demo_greville p n T).
Proof. unfold demo_greville. quiet. Qed.

Lemma demo_gauss_legendre_quiet (m : Z) :
  never_raises UnboundLocalError (demo_gauss_legendre m).
Proof. unfold demo_gauss_legendre. repeat case_match; quiet. Qed.

Lemma demo_quadrature_grid_quiet (ne k : Z) (u w grid : loc) :
  never_raises UnboundLocalError (demo_quadrature_grid ne k u w grid).
Proof. unfold demo_quadrature_grid. quiet. Qed.

End Runs.

Section MoreWitnesses.

Import Demo Runs.
Local Open Scope Q_scope.

Ltac run := vm_compute; reflexivity.

Lemma integrate_column_shortage_witness :
  (2 < 3)%nat
  ∧ ∃ h', integrate 0 Qplus Qmult 1%positive 2%positive square narrow
          = (Raise IndexError, h')
        ∧ ∀ l o, narrow !! l = Some o → h' !! l = Some o.
Proof.
  split; [lia|].
  apply (integrate_column_shortage 0 Qplus Qmult 1%positive 2%positive square
           narrow 2%nat 3%nat 2%nat 2%nat nodes halves); [run|run|lia].
Defined.

Lemma integrate_truncates_witness :
  ∃ (r : loc) (out : list Q),
    integrate 0 Qplus Qmult 1%positive 2%positive square wide
    = (Ok r, <[r := Array1 out]> wide)
    ∧ wide !! r = None
    ∧ length out = 3%nat
    ∧ ∀ ie, (ie < 3)%nat →
        out !! ie = Some (element_integral 0 Qplus Qmult (2 `min` 3) nodes
                            halves square ie).
Proof.
  apply (integrate_truncates 0 Qplus Qmult 1%positive 2%positive square
           wide 2%nat 3%nat 3%nat 4%nat nodes halves); [run|run|lia].
Defined.

Lemma integrate_empty_witness :
  (no_element !! 2%positive = None
   ∧ ∃ r, integrate 0 Qplus Qmult 1%positive 2%positive square no_element
          = (Ok r, <[r := Array1 []]> no_element)
        ∧ no_element !! r = None)
  ∧ (∃ r, integrate 0 Qplus Qmult 1%positive 2%positive square no_node
          = (Ok r, <[r := Array1 (replicate 3 0)]> no_node)
        ∧ no_node !! r = None).
Proof.
  split; [split; [run|]|].
  - apply (proj1 (integrate_empty 0 Qplus Qmult) 1%positive 2%positive square
             no_element 2%nat nodes). run.
  - apply (proj2 (integrate_empty 0 Qplus Qmult) 1%positive 2%positive square
             no_node 0%nat 3%nat 2%nat 3%nat nodes halves);
      [run|run|lia|by left].
Defined.

Lemma integrate_samples_points_witness :
  square 100 ≠ square_but 100
  ∧ integrate 0 Qplus Qmult 1%positive 2%positive square built
    = integrate 0 Qplus Qmult 1%positive 2%positive square_but built.
Proof.
  split; [by vm_compute|].
  apply (integrate_samples_points 0 Qplus Qmult 1%positive 2%positive
           square square_but built 2%nat 3%nat 2%nat 3%nat nodes halves);
    [run|run|lia|].
  intros i ie Hi Hie.
  destruct i as [|[|i]]; [| |lia];
    (destruct ie as [|[|[|ie]]]; [| | |lia]); run.
Defined.

Lemma Integral_init_all_or_nothing_witness :
  ∃ (e : exn) h',
    Integral_init demo_grid_from_knots demo_greville demo_gauss_legendre
      demo_quadrature_grid self_at 2 5 knots_at "natural" (Some 5%Z) start
    = (Raise e, h')
    ∧ (∀ l o, l ≠ self_at → start !! l = Some o → h' !! l = Some o)
    ∧ (∀ l o, start !! l = Some o → h' !! l = Some o).
Proof.
  assert (∃ e h',
    Integral_init demo_grid_from_knots demo_greville demo_gauss_legendre
      demo_quadrature_grid self_at 2 5 knots_at "natural" (Some 5%Z) start
    = (Raise e, h')) as (e & h' & E) by (do 2 eexists; run).
  exists e, h'. split; [exact E|].
  destruct (Integral_init_all_or_nothing demo_grid_from_knots demo_greville
              demo_gauss_legendre demo_quadrature_grid
              demo_grid_from_knots_safe demo_greville_safe
              demo_gauss_legendre_safe demo_quadrature_grid_safe
              self_at 2%Z 5%Z knots_at "natural" (Some 5%Z) start h'
              (Raise e) E) as [H1 H2].
  split; [exact H1|exact (H2 e eq_refl)].
Defined.

Lemma Integral_grid_always_bound_witness :
  Integral_init demo_grid_from_knots demo_greville demo_gauss_legendre
    demo_quadrature_grid self_at 2 5 knots_at "simpson" None start
  ≠ (Raise UnboundLocalError, start).
Proof.
  exact (Integral_grid_always_bound demo_grid_from_knots demo_greville
           demo_gauss_legendre demo_quadrature_grid
           demo_grid_from_knots_quiet demo_greville_quiet
           demo_gauss_legendre_quiet demo_quadrature_grid_quiet
           self_at 2%Z 5%Z knots_at "simpson" None start start).
Defined.

Lemma Interpolation_init_given_sites_witness :
  ∃ h', Interpolation_init demo_greville 2%positive 2 5 1%positive
          (Some 1%positive) unsited = (Ok tt, h')
    ∧ has_attr h' 2%positive "_sites" (VRef 1%positive)
    ∧ has_attr h' 2%positive "_p" (VInt 2)
    ∧ has_attr h' 2%positive "_n" (VInt 5)
    ∧ has_attr h' 2%positive "_T" (VRef 1%positive)
    ∧ ∀ l, l ≠ 2%positive → h' !! l = unsited !! l.
Proof.
  apply (Interpolation_init_given_sites demo_greville 2%positive 2%Z 5%Z
           1%positive 1%positive unsited ∅). run.
Defined.

Lemma Interpolation_sites_by_reference_witness :
  ∃ (h1 h2 : gmap loc (@pyobj Q)) (r : loc),
    Interpolation_init demo_greville 2%positive 2 5 1%positive
      (Some 1%positive) unsited = (Ok tt, h1)
    ∧ setitem 1%positive 1 3 h1 = (Ok tt, h2)
    ∧ Interpolation_call 2%positive square h2
      = (Ok r, <[r := Array1 (map square (<[1%nat := 3]> [0; 1 # 2; 1]))]> h2)
    ∧ h2 !! r = None.
Proof.
  apply (Interpolation_sites_by_reference demo_greville 2%positive 2%Z 5%Z
           1%positive 1%positive unsited ∅ [0; 1 # 2; 1] 1%nat 3 square);
    [run|run|simpl; lia].
Defined.

Lemma Interpolation_init_all_or_nothing_witness :
  ∃ (e : exn) h',
    Interpolation_init demo_greville self_at 2 5 self_at None start
    = (Raise e, h')
    ∧ (∀ l o, l ≠ self_at → start !! l = Some o → h' !! l = Some o)
    ∧ (∀ l o, start !! l = Some o → h' !! l = Some o).
Proof.
  assert (∃ e h',
    Interpolation_init demo_greville self_at 2 5 self_at None start
    = (Raise e, h')) as (e & h' & E) by (do 2 eexists; run).
  exists e, h'. split; [exact E|].
  destruct (Interpolation_init_all_or_nothing demo_greville demo_greville_safe
              self_at 2%Z 5%Z self_at None start h' (Raise e) E) as [H1 H2].
  split; [exact H1|exact (H2 e eq_refl)].
Defined.

Lemma call_after_failed_init_witness :
  (∃ (e : exn) h1,
     Integral_init demo_grid_from_knots demo_greville demo_gauss_legendre
       demo_quadrature_grid self_at 2 5 knots_at "natural" (Some 5%Z) start
     = (Raise e, h1)
     ∧ Integral_call 0 Qplus Qmult self_at square h1
       = (Raise AttributeError, h1))
  ∧ (∃ (e : exn) h1,
       Interpolation_init demo_greville self_at 2 5 self_at None start
       = (Raise e, h1)
       ∧ Interpolation_call self_at square h1 = (Raise AttributeError, h1)).
Proof.
  pose proof (call_after_failed_init 0 Qplus Qmult demo_grid_from_knots
                demo_greville demo_gauss_legendre demo_quadrature_grid
                demo_grid_from_knots_safe demo_greville_safe
                demo_gauss_legendre_safe demo_quadrature_grid_safe)
    as [HI HP].
  assert (start !! self_at = Some (Instance ∅)) as Hself by run.
  split.
  - assert (∃ e h1,
      Integral_init demo_grid_from_knots demo_greville demo_gauss_legendre
        demo_quadrature_grid self_at 2 5 knots_at "natural" (Some 5%Z) start
      = (Raise e, h1)) as (e & h1 & E) by (do 2 eexists; run).
    exists e, h1. split; [exact E|].
    exact (HI self_at 2%Z 5%Z knots_at "natural" (Some 5%Z) square start h1 e ∅
             Hself eq_refl E).
  - assert (∃ e h1,
      Interpolation_init demo_greville self_at 2 5 self_at None start
      = (Raise e, h1)) as (e & h1 & E) by (do 2 eexists; run).
    exists e, h1. split; [exact E|].
    exact (HP self_at 2%Z 5%Z self_at None square start h1 e ∅
             Hself eq_refl E).
Defined.

Lemma Integral_init_attributes_witness :
  ∃ (grid points weights : loc) h',
    Integral_init demo_grid_from_knots demo_greville demo_gauss_legendre
      demo_quadrature_grid self_at 2 5 knots_at "greville" None start
    = (Ok tt, h')
    ∧ has_attr h' self_at "_grid" (VRef grid)
    ∧ has_attr h' self_at "_kind" (VStr "greville")
    ∧ has_attr h' self_at "_p" (VInt 2)
    ∧ has_attr h' self_at "_n" (VInt 5)
    ∧ has_attr h' self_at "_T" (VRef knots_at)
    ∧ has_attr h' self_at "_points" (VRef points)
    ∧ has_attr h' self_at "_weights" (VRef weights).
Proof.
  assert (∃ grid g points weights h3,
    quadrature_built demo_grid_from_knots demo_greville demo_gauss_legendre
      demo_quadrature_grid 2 5 knots_at "greville" (default (2 + 1)%Z None)
      start grid g points weights h3
    ∧ h3 !! self_at = Some (Instance ∅))
    as (grid & g & points & weights & h3 & Hq & Hs).
  { do 5 eexists.
    split; [econstructor; [apply grid_greville; run|run..]|run]. }
  destruct (Integral_init_attributes demo_grid_from_knots demo_greville
              demo_gauss_legendre demo_quadrature_grid self_at 2%Z 5%Z
              knots_at "greville" None start grid g points weights h3 ∅
              Hq Hs)
    as (h' & E & H1 & H2 & H3 & H4 & H5 & H6 & H7 & _).
  exists grid, points, weights, h'. done.
Defined.

Lemma Integral_call_reads_three_witness :
  built_later ≠ built
  ∧ ∃ (r r2 : loc) (out : list Q),
      Integral_call 0 Qplus Qmult 3%positive square built
      = (Ok r, <[r := Array1 out]> built)
      ∧ Integral_call 0 Qplus Qmult 3%positive square built_later
        = (Ok r2, <[r2 := Array1 out]> built_later)
      ∧ length out = 3%nat.
Proof.
  split.
  - intros E. assert (built_later !! 4%positive = built !! 4%positive) as E'
      by (by rewrite E).
    vm_compute in E'. discriminate E'.
  - apply (Integral_call_reads_three 0 Qplus Qmult 3%positive 1%positive
             2%positive square built built_later 2%nat 3%nat nodes halves).
    + eexists. split; run.
    + eexists. split; run.
    + split; run.
    + run.
    + run.
    + run.
Defined.

End MoreWitnesses.
